(** * Network path analysis: a shallow embedding of [network_path_analysis.py]

    The analyzer loads the links of a hydraulic network, builds a
    bidirectional adjacency structure over node identifiers, enumerates
    paths between every ordered pair of links with a breadth-first search
    whose traversed-edge set is global to one query, reduces every path set
    to a minimum midpoint-corrected distance and assembles two symmetric
    matrices.

    Modelling conventions.
    - [str] is [string]; identifiers are ASCII, as EPANET identifiers are.
    - [float] is the binary64 type of [PrimFloat], the same format as a
      Python float; arithmetic is evaluated by the kernel.
    - A Python [dict] whose iteration order is observed ([self.links],
      [self.paths], [self.distances]) is an association list in insertion
      order with unique keys; the adjacency dict, only ever queried with
      [get], is a [gmap]; the [visited] set is a [gset].
    - A raised exception is a value of [result]. *)

From Stdlib Require Import Floats ZArith NArith Ascii String.
From Stdlib Require DecimalString DecimalNat.
From stdpp Require Import gmap strings list sorting.

Open Scope string_scope.
Open Scope list_scope.

(** ** Exceptions *)

Inductive exn : Type :=
  | KeyError           (* a dict lookup on a missing key *)
  | IndexError         (* [xs[-1]] on an empty list *)
  | ValueError         (* [min] of an empty sequence *)
  | TypeError          (* [<] between an [int] and a [str] *)
  | FuelExhausted.     (* the bounded unrolling of a [while] ran out *)

Inductive result (A : Type) : Type :=
  | Ok (a : A)
  | Raise (e : exn).
Arguments Ok {A} a.
Arguments Raise {A} e.

#[global] Instance result_ret : MRet result := fun A a => Ok a.
#[global] Instance result_bind : MBind result := fun A B k r =>
  match r with
  | Ok a => k a
  | Raise e => Raise e
  end.

Definition of_option {A} (o : option A) : result A :=
  match o with
  | Some a => Ok a
  | None => Raise KeyError
  end.

(** [for x in xs: acc = f(acc, x)], stopping at the first exception. *)
Fixpoint foldM {A B} (f : A -> B -> result A) (xs : list B) (acc : A) : result A :=
  match xs with
  | [] => Ok acc
  | x :: xs' => acc' ← f acc x; foldM f xs' acc'
  end.

(** [[f(x) for x in xs]], stopping at the first exception. *)
Fixpoint mapM {A B} (f : A -> result B) (xs : list A) : result (list B) :=
  match xs with
  | [] => Ok []
  | x :: xs' => y ← f x; ys ← mapM f xs'; Ok (y :: ys)
  end.

(** ** Insertion-ordered dictionaries *)

Abbreviation dict K V := (list (K * V)).

Section PyDict.
Context {K V : Type} `{EqDecision K}.

(** [d.get(k)] *)
Fixpoint dict_get (d : dict K V) (k : K) : option V :=
match d with
| [] => None
| (k', v) :: d' => if decide (k = k') then Some v else dict_get d' k
end.

(** [d[k] = v]: an existing key keeps its position, a new one goes last. *)
Fixpoint dict_set (d : dict K V) (k : K) (v : V) : dict K V :=
match d with
| [] => [(k, v)]
| (k', v') :: d' =>
if decide (k = k') then (k, v) :: d' else (k', v') :: dict_set d' k v
end.

Definition keys (d : dict K V) : list K := d.*1.
Definition values (d : dict K V) : list V := d.*2.

(** [d[k]] *)
Definition dict_item (d : dict K V) (k : K) : result V := of_option (dict_get d k).
End PyDict.

(** ** Data model *)

Module NetworkLink.
Record t : Type := mk {
id : string;
start_node : string;
end_node : string;
length : float
}.
End NetworkLink.

Abbreviation Path := (list string).
Abbreviation Graph := (gmap string (list (string * string))).

Record NetworkAnalyzer : Type := mkAnalyzer {
  links : dict string NetworkLink.t;
  paths : dict (string * string) (list Path);
  distances : dict (string * string) float;
  link_indices : dict Z string
}.

Definition set_links (self : NetworkAnalyzer) v :=
  mkAnalyzer v (paths self) (distances self) (link_indices self).
Definition set_paths (self : NetworkAnalyzer) v :=
  mkAnalyzer (links self) v (distances self) (link_indices self).
Definition set_distances (self : NetworkAnalyzer) v :=
  mkAnalyzer (links self) (paths self) v (link_indices self).
Definition set_link_indices (self : NetworkAnalyzer) v :=
  mkAnalyzer (links self) (paths self) (distances self) v.

(** [__init__]: every dictionary starts empty. *)
Definition init : NetworkAnalyzer := mkAnalyzer [] [] [] [].

(** ** Loading

    The EPANET project is seen through what [load_network] reads from it:
    for the link indices 1..n, the identifier, the identifiers of the two
    end nodes and the length. *)

Fixpoint load_links (self : NetworkAnalyzer) (link_index : Z)
    (rows : list NetworkLink.t) : NetworkAnalyzer :=
  match rows with
  | [] => self
  | row :: rows' =>
      let link_id := NetworkLink.id row in
      let self := set_link_indices self (dict_set (link_indices self) link_index link_id) in
      let self := set_links self (dict_set (links self) link_id row) in
      load_links self (link_index + 1) rows'
  end.

Definition load_network (self : NetworkAnalyzer) (project : list NetworkLink.t) :=
  load_links self 1 project.

(** ** Graph builder *)

(** [if n not in graph: graph[n] = []] followed by [graph[n].append(e)] *)
Definition graph_append (graph : Graph) (n : string) (e : string * string) : Graph :=
  <[n := default [] (graph !! n) ++ [e]]> graph.

Definition add_link (graph : Graph) (link : NetworkLink.t) : Graph :=
  let graph := graph_append graph (NetworkLink.start_node link)
                 (NetworkLink.end_node link, NetworkLink.id link) in
  graph_append graph (NetworkLink.end_node link)
    (NetworkLink.start_node link, NetworkLink.id link).

Definition _build_graph (self : NetworkAnalyzer) : Graph :=
  fold_left add_link (values (links self)) ∅.

(** ** Path enumerator *)

Record bfs_state : Type := mkBfs {
  queue : list (string * Path);
  visited : gset (string * string);
  found : list Path
}.

(** One round of the inner [for]: the test, the [append] and the [add]. *)
Definition visit (current_node : string) (path : Path)
    (qv : list (string * Path) * gset (string * string))
    (edge : string * string) : list (string * Path) * gset (string * string) :=
  let '(neighbor, next_link) := edge in
  if bool_decide (next_link ∉ path) && bool_decide ((current_node, neighbor) ∉ qv.2)
  then (qv.1 ++ [(neighbor, path ++ [next_link])], qv.2 ∪ {[(current_node, neighbor)]})
  else qv.

(** One iteration of [while queue]; [None] when the queue is empty. *)
Definition bfs_step (graph : Graph) (end_link : string) (st : bfs_state) : option bfs_state :=
  match queue st with
  | [] => None
  | (current_node, path) :: rest =>
      if bool_decide (last path = Some end_link)
      then Some (mkBfs rest (visited st) (found st ++ [path]))
      else
        let qv := fold_left (visit current_node path)
                    (default [] (graph !! current_node)) (rest, visited st) in
        Some (mkBfs qv.1 qv.2 (found st))
  end.

Fixpoint bfs_while (fuel : nat) (graph : Graph) (end_link : string)
    (st : bfs_state) : result (list Path) :=
  match bfs_step graph end_link st with
  | None => Ok (found st)
  | Some st' =>
      match fuel with
      | O => Raise FuelExhausted
      | S fuel' => bfs_while fuel' graph end_link st'
      end
  end.

(** The queue and the set a query starts from. *)
Definition bfs_init (start_link_data : NetworkLink.t) (start_link : string) : bfs_state :=
  mkBfs [(NetworkLink.start_node start_link_data, [start_link]);
         (NetworkLink.end_node start_link_data, [start_link])] ∅ [].

(** Iterations granted to one query: the two seeds and one per appended
    entry, of which there is at most one per adjacency entry. *)
Definition bfs_fuel (self : NetworkAnalyzer) : nat :=
  2 + 2 * length (links self).

Definition bfs_paths (self : NetworkAnalyzer) (graph : Graph)
    (start_link end_link : string) : result (list Path) :=
  start_link_data ← dict_item (links self) start_link;
  bfs_while (bfs_fuel self) graph end_link (bfs_init start_link_data start_link).

(** [itertools.permutations(xs, 2)]: pairs of elements at distinct
    positions, in lexicographic order of the positions. *)
Fixpoint permutations2_from {A} (before after : list A) : list (A * A) :=
  match after with
  | [] => []
  | x :: after' =>
      ((fun y => (x, y)) <$> (before ++ after')) ++
      permutations2_from (before ++ [x]) after'
  end.

Definition permutations2 {A} (xs : list A) : list (A * A) :=
  permutations2_from [] xs.

Definition find_all_paths (self : NetworkAnalyzer) : result NetworkAnalyzer :=
  let graph := _build_graph self in
  foldM (fun self '(start_link, end_link) =>
           ps ← bfs_paths self graph start_link end_link;
           Ok (set_paths self (dict_set (paths self) (start_link, end_link) ps)))
        (permutations2 (keys (links self))) self.

(** ** Distance calculator *)

(** [sum(xs)]: left to right, from the integer 0.  Interpreters that
    compensate the rounding error of float sums (CPython from 3.12 on)
    return the same value whenever every partial sum is exact, as for a
    single length and for the lengths of the samples below. *)
Definition py_sum (xs : list float) : float := fold_left PrimFloat.add xs 0%float.

(** [min(xs)]: the first element that no later one is [<] than. *)
Definition py_min (xs : list float) : result float :=
  match xs with
  | [] => Raise ValueError
  | x :: xs' => Ok (fold_left (fun m item => if (item <? m)%float then item else m) xs' x)
  end.

Definition link_length (self : NetworkAnalyzer) (link : string) : result float :=
  link_data ← dict_item (links self) link;
  Ok (NetworkLink.length link_data).

Definition midpoint_correction (first_length last_length : float) : float :=
  (first_length / 2 + last_length / 2)%float.

Definition compute_path_distance (self : NetworkAnalyzer) (path : Path) : result float :=
  match path with
  | [] => Ok 0%float
  | first :: _ =>
      lengths ← mapM (link_length self) path;
      let total_length := py_sum lengths in
      first_length ← link_length self first;
      last_link ← match last path with Some l => Ok l | None => Raise IndexError end;
      last_length ← link_length self last_link;
      Ok (total_length - midpoint_correction first_length last_length)%float
  end.

Definition compute_shortest_distances (self : NetworkAnalyzer) : result NetworkAnalyzer :=
  foldM (fun self '(link_pair, ps) =>
           match ps with
           | [] => Ok self
           | _ :: _ =>
               ds ← mapM (compute_path_distance self) ps;
               m ← py_min ds;
               Ok (set_distances self (dict_set (distances self) link_pair m))
           end)
        (paths self) self.

(** ** Natural sort key *)

Definition is_digit (c : ascii) : bool :=
  (48 <=? nat_of_ascii c)%nat && (nat_of_ascii c <=? 57)%nat.

Definition snoc (s : string) (c : ascii) : string := (s +:+ String c "").

(** [re.split('([0-9]+)', x)]: the text between the maximal runs of
    digits, with the runs themselves (the captured group) in between.
    [cur] is the run being read, [in_digits] tells which kind it is. *)
Fixpoint split_runs (x : string) (in_digits : bool) (cur : string) : list string :=
  match x with
  | EmptyString => if in_digits then [cur; ""] else [cur]
  | String c x' =>
      if is_digit c
      then if in_digits
           then split_runs x' true (snoc cur c)
           else cur :: split_runs x' true (String c "")
      else if in_digits
           then cur :: split_runs x' false (String c "")
           else split_runs x' false (snoc cur c)
  end.

Definition re_split_digits (x : string) : list string := split_runs x false "".

Fixpoint forallb_string (p : ascii -> bool) (s : string) : bool :=
  match s with
  | EmptyString => true
  | String c s' => p c && forallb_string p s'
  end.

(** [t.isdigit()] *)
Definition isdigit (t : string) : bool :=
  match t with
  | EmptyString => false
  | _ => forallb_string is_digit t
  end.

(** [int(t)] for a run of decimal digits; Python integers are unbounded,
    hence [N]. *)
Fixpoint int_from (acc : N) (t : string) : N :=
  match t with
  | EmptyString => acc
  | String c t' => int_from (10 * acc + (N_of_ascii c - 48))%N t'
  end.

Definition int (t : string) : N := int_from 0%N t.

Definition lower_char (c : ascii) : ascii :=
  let n := nat_of_ascii c in
  if (65 <=? n)%nat && (n <=? 90)%nat then ascii_of_nat (n + 32) else c.

(** [t.lower()] *)
Fixpoint lower (t : string) : string :=
  match t with
  | EmptyString => EmptyString
  | String c t' => String (lower_char c) (lower t')
  end.

Inductive token : Type :=
  | TInt (n : N)
  | TStr (s : string).

#[global] Instance token_eq_dec : EqDecision token.
Proof. solve_decision. Defined.

(** [int(t) if t.isdigit() else t.lower()] *)
Definition classify (t : string) : token :=
  if isdigit t then TInt (int t) else TStr (lower t).

(** [[... for t in re.split('([0-9]+)', x)]] *)
Definition natural_key (x : string) : list token :=
  classify <$> re_split_digits x.

(** [a < b] on key elements; an [int] against a [str] is a [TypeError]. *)
Definition token_lt (a b : token) : result bool :=
  match a, b with
  | TInt m, TInt n => Ok (m <? n)%N
  | TStr s, TStr t => Ok (String.ltb s t)
  | _, _ => Raise TypeError
  end.

(** [k1 < k2] on lists: the first position where the elements are not
    [==] decides; a proper prefix is smaller. *)
Fixpoint key_lt (k1 k2 : list token) : result bool :=
  match k1, k2 with
  | [], [] => Ok false
  | [], _ :: _ => Ok true
  | _ :: _, [] => Ok false
  | a :: k1', b :: k2' =>
      if bool_decide (a = b) then key_lt k1' k2' else token_lt a b
  end.

Definition natural_lt (x y : string) : bool :=
  match key_lt (natural_key x) (natural_key y) with
  | Ok b => b
  | Raise _ => false
  end.

(** [sorted(xs, key=...)]: the stable sort, written as the insertion that
    keeps an element behind every one that is not greater. *)
Section Sorted.
Context {A : Type} (lt : A -> A -> bool).

Fixpoint insert_sorted (x : A) (l : list A) : list A :=
match l with
| [] => [x]
| y :: l' => if lt y x then y :: insert_sorted x l' else x :: y :: l'
end.

Definition sorted (xs : list A) : list A := foldr insert_sorted [] xs.
End Sorted.

(** ** Data frames *)

Record DataFrame (L : Type) : Type := mkFrame {
  index : list L;
  columns : list L;
  data : list (list float)
}.
Arguments mkFrame {L} _ _ _.
Arguments index {L} _.
Arguments columns {L} _.
Arguments data {L} _.

Section Frames.
Context {L : Type} `{EqDecision L}.

(** [pd.DataFrame(v, index=..., columns=...)] *)
Definition full (v : float) (idx cols : list L) : DataFrame L :=
mkFrame idx cols (replicate (length idx) (replicate (length cols) v)).

(** The position of a label: that of its first occurrence. *)
Fixpoint get_loc (labels : list L) (l : L) : option nat :=
match labels with
| [] => None
| l' :: labels' => if decide (l' = l) then Some 0 else S <$> get_loc labels' l
end.

(** Setting on a label that is missing enlarges the frame with [nan]. *)
Definition with_row (df : DataFrame L) (r : L) : DataFrame L :=
match get_loc (index df) r with
| Some _ => df
| None => mkFrame (index df ++ [r]) (columns df)
      (data df ++ [replicate (length (columns df)) nan])
end.

Definition with_column (df : DataFrame L) (c : L) : DataFrame L :=
match get_loc (columns df) c with
| Some _ => df
| None => mkFrame (index df) (columns df ++ [c])
      ((fun row => row ++ [nan]) <$> data df)
end.

(** [df.at[r, c] = v] *)
Definition at_set (df : DataFrame L) (r c : L) (v : float) : DataFrame L :=
let df := with_column (with_row df r) c in
match get_loc (index df) r, get_loc (columns df) c with
| Some i, Some j => mkFrame (index df) (columns df) (alter (<[j := v]>) i (data df))
| _, _ => df
end.

End Frames.

(** ** Matrix assembler *)

Definition unique_links (self : NetworkAnalyzer) : list string :=
  sorted natural_lt (keys (links self)).

(** [enumerate(xs, start)] *)
Fixpoint enumerate_from {A} (start : nat) (xs : list A) : list (nat * A) :=
  match xs with
  | [] => []
  | x :: xs' => (start, x) :: enumerate_from (S start) xs'
  end.

Definition enumerate {A} (xs : list A) : list (nat * A) := enumerate_from 0 xs.

(** [{link_id: idx for idx, link_id in enumerate(unique_links)}] *)
Definition id_to_index (labels : list string) : dict string nat :=
  fold_left (fun d '(idx, link_id) => dict_set d link_id idx) (enumerate labels) [].

Definition fill_id (m : DataFrame string) (entry : (string * string) * float) : DataFrame string :=
  let '((link1, link2), distance) := entry in
  at_set (at_set m link1 link2 distance) link2 link1 distance.

Definition fill_index (to_index : dict string nat) (m : DataFrame nat)
    (entry : (string * string) * float) : result (DataFrame nat) :=
  let '((link1, link2), distance) := entry in
  idx1 ← dict_item to_index link1;
  idx2 ← dict_item to_index link2;
  Ok (at_set (at_set m idx1 idx2 distance) idx2 idx1 distance).

Definition create_distance_matrices (self : NetworkAnalyzer)
    : result (DataFrame nat * DataFrame string) :=
  let unique_links := unique_links self in
  let id_matrix := full 0%float unique_links unique_links in
  let id_matrix := fold_left fill_id (distances self) id_matrix in
  let num_links := length unique_links in
  let index_matrix := full 0%float (seq 0 num_links) (seq 0 num_links) in
  index_matrix ← foldM (fill_index (id_to_index unique_links)) (distances self) index_matrix;
  Ok (index_matrix, id_matrix).

(** ** Paths file

    The file is represented by the JSON object it holds, an object from
    strings to lists of lists of strings: [json.load] gives back what
    [json.dump] was given. *)

Abbreviation PathsFile := (dict string (list Path)).

(** [f"{key[0]},{key[1]}"] *)
Definition string_key (key : string * string) : string := key.1 +:+ "," +:+ key.2.

(** [s.split(',')] *)
Fixpoint split_comma (s : string) : list string :=
  match s with
  | EmptyString => [""]
  | String c s' =>
      if Ascii.eqb c ","%char then "" :: split_comma s'
      else match split_comma s' with
           | t :: ts => String c t :: ts
           | [] => [String c ""]
           end
  end.

Definition save_paths (self : NetworkAnalyzer) : PathsFile :=
  fold_left (fun d '(key, value) => dict_set d (string_key key) value) (paths self) [].

(** The keys of the loaded dictionary are the tuples [split] yields,
    whatever their number of components. *)
Definition load_paths (file : PathsFile) : dict (list string) (list Path) :=
  fold_left (fun d '(key, value) => dict_set d (split_comma key) value) file [].

(** ** Output files

    [self.network_name], set by [__init__] from the name of the input
    file, is passed to the functions that read it.  Paths are POSIX
    paths. *)

(** [s.rfind(c)]: the position of the last [c] in [s], or -1. *)
Fixpoint rfind (s : string) (c : ascii) : Z :=
  match s with
  | EmptyString => (-1)%Z
  | String a s' =>
      let r := rfind s' c in
      if (0 <=? r)%Z then (r + 1)%Z else if Ascii.eqb a c then 0%Z else (-1)%Z
  end.

(** [s[i:]] *)
Fixpoint slice_from (i : nat) (s : string) : string :=
  match i, s with
  | O, _ => s
  | S _, EmptyString => EmptyString
  | S i', String _ s' => slice_from i' s'
  end.

(** [s[:i]] *)
Fixpoint slice_to (i : nat) (s : string) : string :=
  match i, s with
  | O, _ => EmptyString
  | S _, EmptyString => EmptyString
  | S i', String a s' => String a (slice_to i' s')
  end.

(** [os.path.basename(p)]: [i = p.rfind('/') + 1; return p[i:]] *)
Definition basename (p : string) : string :=
  let i := (rfind p "/" + 1)%Z in
  slice_from (Z.to_nat i) p.

(** The [while] of [splitext], which skips the leading dots of the file
    name: [true] when it runs to its end, having met among the [n]
    characters from [filenameIndex] on nothing but dots. *)
Fixpoint leading_dots (p : string) (filenameIndex n : nat) : bool :=
  match n with
  | O => true
  | S n' =>
      match get filenameIndex p with
      | Some a => Ascii.eqb a "." && leading_dots p (S filenameIndex) n'
      | None => false
      end
  end.

(** [os.path.splitext(p)] *)
Definition splitext (p : string) : string * string :=
  let sepIndex := rfind p "/" in
  let dotIndex := rfind p "." in
  if (sepIndex <? dotIndex)%Z &&
     negb (leading_dots p (Z.to_nat (sepIndex + 1)) (Z.to_nat (dotIndex - (sepIndex + 1))))
  then (slice_to (Z.to_nat dotIndex) p, slice_from (Z.to_nat dotIndex) p)
  else (p, EmptyString).

(** [os.path.splitext(os.path.basename(input_file))[0]] *)
Definition network_name (input_file : string) : string :=
  (splitext (basename input_file)).1.

(** [f"{prefix}_{self.network_name}.{extension}"] *)
Definition get_output_filename (network_name prefix extension : string) : string :=
  prefix +:+ "_" +:+ network_name +:+ "." +:+ extension.

(** The file [save_paths] writes and [load_paths] reads. *)
Definition paths_filename (network_name : string) : string :=
  get_output_filename network_name "paths" "json".

(** [str(idx)] for an index: its decimal digits. *)
Definition str (idx : nat) : string :=
  DecimalString.NilEmpty.string_of_uint (Nat.to_uint idx).

(** [xs[idx]] for [0 <= idx] *)
Definition list_item {A} (xs : list A) (idx : nat) : result A :=
  match xs !! idx with
  | Some x => Ok x
  | None => Raise IndexError
  end.

(** [{str(idx): id_matrix.index[idx] for idx in range(len(id_matrix))}];
    the length of a frame is the number of its rows. *)
Definition index_to_id (id_matrix : DataFrame string) : result (dict string string) :=
  foldM (fun d idx =>
           link_id ← list_item (index id_matrix) idx;
           Ok (dict_set d (str idx) link_id))
        (seq 0 (length (index id_matrix))) [].

(** What a file holds: a frame written by [to_csv], or an object written
    by [json.dump]. *)
Inductive content : Type :=
  | CsvIndex (matrix : DataFrame nat)
  | CsvId (matrix : DataFrame string)
  | JsonMapping (mapping : dict string string)
  | JsonPaths (file : PathsFile).

(** [save_distance_matrices]: the files it writes, in the order in which
    it writes them. *)
Definition save_distance_matrices (network_name : string)
    (index_matrix : DataFrame nat) (id_matrix : DataFrame string)
    : result (list (string * content)) :=
  let index_filename := get_output_filename network_name "distance_matrix_index" "csv" in
  let id_filename := get_output_filename network_name "distance_matrix_id" "csv" in
  let mapping_filename := get_output_filename network_name "index_to_id_mapping" "json" in
  index_to_id ← index_to_id id_matrix;
  Ok [(index_filename, CsvIndex index_matrix);
      (id_filename, CsvId id_matrix);
      (mapping_filename, JsonMapping index_to_id)].

(** ** The whole run, as [analyze_network] sequences it *)

Definition analyze_network (project : list NetworkLink.t)
    : result (NetworkAnalyzer * PathsFile * (DataFrame nat * DataFrame string)) :=
  let analyzer := load_network init project in
  analyzer ← find_all_paths analyzer;
  let file := save_paths analyzer in
  analyzer ← compute_shortest_distances analyzer;
  matrices ← create_distance_matrices analyzer;
  Ok (analyzer, file, matrices).

(** * Vocabulary of the properties *)

(** ** Well-formed analyzers *)

(** What [load_network] guarantees of [self.links]: every link is stored
    under its own identifier (that keys are unique is what a dict is). *)
Definition consistent (self : NetworkAnalyzer) : bool :=
  bool_decide (NoDup (keys (links self))) &&
  forallb (fun kv => bool_decide (NetworkLink.id kv.2 = kv.1)) (links self).

(** The analyzer as [analyze_network] has it before the searches: the
    links are loaded and nothing has been computed yet. *)
Definition fresh (self : NetworkAnalyzer) : bool :=
  consistent self &&
  match paths self, distances self with
  | [], [] => true
  | _, _ => false
  end.


(** An identifier without a comma. *)
Definition comma_free (s : string) : bool :=
  forallb_string (λ c, negb (Ascii.eqb c ","%char)) s.

(** A path set whose link identifiers have no comma (and whose pairs, as
    in any dict, occur once). *)
Definition paths_ok (self : NetworkAnalyzer) : bool :=
  bool_decide (NoDup (keys (paths self))) &&
  forallb (λ kv, comma_free kv.1.1 && comma_free kv.1.2) (paths self).

(** A path set whose paths name loaded links only. *)
Definition paths_known (self : NetworkAnalyzer) : Prop :=
  ∀ entry path link,
    entry ∈ paths self → path ∈ entry.2 → link ∈ path → link ∈ keys (links self).

(** ** The graph *)

(** [(neighbor, link)] is listed under [n]. *)
Definition adjacent (graph : Graph) (n neighbor link : string) : Prop :=
  (neighbor, link) ∈ default [] (graph !! n).

(** Link [l] joins [n] to [neighbor] and is called [link]. *)
Definition realizes (l : NetworkLink.t) (n neighbor link : string) : Prop :=
  link = NetworkLink.id l ∧
  ((n = NetworkLink.start_node l ∧ neighbor = NetworkLink.end_node l) ∨
   (n = NetworkLink.end_node l ∧ neighbor = NetworkLink.start_node l)).

(** The directed edges of the network: both directions of every link. *)
Definition directed_edges (self : NetworkAnalyzer) : list (string * string) :=
  l ← values (links self);
  [(NetworkLink.start_node l, NetworkLink.end_node l);
   (NetworkLink.end_node l, NetworkLink.start_node l)].

(** The adjacency entries one link contributes to node [n]: its forward
    direction, then its reverse direction. *)
Definition incident (n : string) (link : NetworkLink.t) : list (string * string) :=
  (if decide (NetworkLink.start_node link = n)
   then [(NetworkLink.end_node link, NetworkLink.id link)] else []) ++
  (if decide (NetworkLink.end_node link = n)
   then [(NetworkLink.start_node link, NetworkLink.id link)] else []).

(** Two links that join the same two nodes. *)
Definition parallel (l1 l2 : NetworkLink.t) : Prop :=
  (NetworkLink.start_node l1 = NetworkLink.start_node l2 ∧
   NetworkLink.end_node l1 = NetworkLink.end_node l2) ∨
  (NetworkLink.start_node l1 = NetworkLink.end_node l2 ∧
   NetworkLink.end_node l1 = NetworkLink.start_node l2).

(** No two links of the network join the same two nodes. *)
Definition no_parallel (self : NetworkAnalyzer) : bool :=
  forallb (λ l1,
    forallb (λ l2, bool_decide (parallel l1 l2 → NetworkLink.id l1 = NetworkLink.id l2))
            (values (links self)))
    (values (links self)).

(** One step from a node to a node, along some link. *)
Definition linked (self : NetworkAnalyzer) (a b : string) : Prop :=
  ∃ link, adjacent (_build_graph self) a b link.

(** [x] is one of the two nodes of [l]. *)
Definition end_of (l : NetworkLink.t) (x : string) : Prop :=
  x = NetworkLink.start_node l ∨ x = NetworkLink.end_node l.

(** ** The search *)

(** The state after [n] iterations of the [while], if there are that many. *)
Fixpoint bfs_iter (n : nat) (graph : Graph) (end_link : string)
    (st : bfs_state) : option bfs_state :=
  match n with
  | O => Some st
  | S n' => st' ← bfs_step graph end_link st; bfs_iter n' graph end_link st'
  end.

(** The number of [queue.append] calls made by the iteration that starts
    in [st]: one entry is popped, the rest of the difference was appended. *)
Definition appended (graph : Graph) (end_link : string) (st : bfs_state) : nat :=
  match bfs_step graph end_link st with
  | Some st' => length (queue st') + 1 - length (queue st)
  | None => 0
  end.

(** The same, summed over the first [n] iterations. *)
Fixpoint appends (n : nat) (graph : Graph) (end_link : string) (st : bfs_state) : nat :=
  match n with
  | O => 0
  | S n' =>
      match bfs_step graph end_link st with
      | Some st' => appended graph end_link st + appends n' graph end_link st'
      | None => 0
      end
  end.

(** The two ways an iteration of the [while] goes: the popped path is
    recorded, or it is extended by one entry per neighbour not yet marked. *)
Inductive step_spec (graph : Graph) (end_link : string) (st st' : bfs_state) : Prop :=
  | step_record current_node path rest :
      queue st = (current_node, path) :: rest →
      last path = Some end_link →
      st' = mkBfs rest (visited st) (found st ++ [path]) →
      step_spec graph end_link st st'
  | step_expand current_node path rest new :
      queue st = (current_node, path) :: rest →
      last path ≠ Some end_link →
      st' = mkBfs (rest ++ new)
              (visited st ∪ list_to_set (pair current_node <$> new.*1)) (found st) →
      Forall (λ e, ∃ neighbor link,
                e = (neighbor, path ++ [link]) ∧
                adjacent graph current_node neighbor link ∧ link ∉ path) new →
      NoDup new.*1 →
      (∀ neighbor, neighbor ∈ new.*1 → (current_node, neighbor) ∉ visited st) →
      step_spec graph end_link st st'.

(** A path of the query from [start_link]: it begins with [start_link],
    uses links of the network only, and uses none twice. *)
Definition well_formed (self : NetworkAnalyzer) (start_link : string) (path : Path) : Prop :=
  head path = Some start_link ∧
  (∀ link, link ∈ path → link ∈ keys (links self)) ∧
  NoDup path.

(** What every iteration of a query keeps true of the queue and of the
    recorded paths. *)
Definition shape_invariant (self : NetworkAnalyzer) (start_link end_link : string)
    (st : bfs_state) : Prop :=
  (∀ n path, (n, path) ∈ queue st → well_formed self start_link path) ∧
  (∀ path, path ∈ found st →
     well_formed self start_link path ∧ last path = Some end_link).

(** The lengths of the recorded paths, then of the queued ones, in order. *)
Definition profile (st : bfs_state) : list nat :=
  (length <$> found st) ++ (length <$> (queue st).*2).

(** Breadth-first layering: lengths never decrease along the recorded
    paths followed by the queue, and within the queue differ by at most
    one. *)
Definition layered (st : bfs_state) : Prop :=
  StronglySorted le (profile st) ∧
  ∀ a b, a ∈ length <$> (queue st).*2 → b ∈ length <$> (queue st).*2 → (a ≤ S b)%nat.

(** A path set entry that [compute_shortest_distances] does not skip. *)
Definition reachable (entry : (string * string) * list Path) : Prop := entry.2 ≠ [].

(** A walk of the query that starts on the link [start_link_data], called
    [start_link]: the path [path] leaves the start link by one of its two
    nodes, passes every further link from one of its ends to the other and
    arrives at [node]. *)
Inductive walk (self : NetworkAnalyzer) (start_link_data : NetworkLink.t)
    (start_link : string) : string → Path → Prop :=
  | walk_from_start :
      walk self start_link_data start_link (NetworkLink.start_node start_link_data) [start_link]
  | walk_from_end :
      walk self start_link_data start_link (NetworkLink.end_node start_link_data) [start_link]
  | walk_extend n path l neighbor link :
      walk self start_link_data start_link n path →
      l ∈ values (links self) →
      realizes l n neighbor link →
      walk self start_link_data start_link neighbor (path ++ [link]).

(** Every queued path is a walk to the node it is queued with, and every
    recorded path is a walk. *)
Definition walk_invariant (self : NetworkAnalyzer) (start_link_data : NetworkLink.t)
    (start_link : string) (st : bfs_state) : Prop :=
  (∀ n path, (n, path) ∈ queue st → walk self start_link_data start_link n path) ∧
  (∀ path, path ∈ found st → ∃ n, walk self start_link_data start_link n path).

(** A node the search has dealt with: it is in the set [D] of the nodes a
    popped path has been extended from, or a path is queued with it. *)
Definition covered (D : gset string) (st : bfs_state) (x : string) : Prop :=
  x ∈ D ∨ ∃ path, (x, path) ∈ queue st.

(** What holds of a search for [end_link] as long as nothing is recorded;
    [D] is the set of the nodes that popped paths have been extended
    from. *)
Definition frontier_invariant (self : NetworkAnalyzer) (start_link_data : NetworkLink.t)
    (end_link : string) (D : gset string) (st : bfs_state) : Prop :=
  let graph := _build_graph self in
  covered D st (NetworkLink.start_node start_link_data) ∧
  covered D st (NetworkLink.end_node start_link_data) ∧
  (∀ x y l, x ∈ D → adjacent graph x y l → covered D st y) ∧
  (∀ x y, (x, y) ∈ visited st → covered D st y) ∧
  (∀ x y, x ∈ D → adjacent graph x y end_link → (x, y) ∈ visited st) ∧
  (∀ x y, (x, y) ∈ visited st →
     ∃ l, adjacent graph x y l ∧
       (l = end_link → ∃ path, (y, path) ∈ queue st ∧ last path = Some end_link)) ∧
  (∀ x path l a b, (x, path) ∈ queue st → l ∈ path → adjacent graph a b l →
     covered D st a ∧ covered D st b) ∧
  (∀ x path, (x, path) ∈ queue st → end_link ∈ path → last path = Some end_link).

(** ** Lengths *)

(** [x] is the positive binary64 number [m * 2^e] with a full 53-bit
    mantissa and an exponent above the smallest one: its half is a
    binary64 number too. *)
Definition normal64 (x : float) (m : positive) (e : Z) : Prop :=
  Prim2SF x = S754_finite false m e ∧ Z.pos (digits2_pos m) = 53%Z ∧ (-1073 ≤ e ≤ 971)%Z.

(** The lengths for which halving is exact: zero, and the finite values
    from [2^-1021] up. *)
Definition halves_exactly (x : float) : Prop :=
  (x =? 0)%float = true ∨
  ((0x1p-1021 <=? x)%float = true ∧ (x <? infinity)%float = true).

(** ** Matrices *)




(** ** Natural order *)

(** A total comparison of key elements and of keys that agrees with [<]
    where Python defines it; integers are put before strings. *)
Definition token_compare (a b : token) : comparison :=
  match a, b with
  | TInt m, TInt n => N.compare m n
  | TStr s, TStr t => String.compare s t
  | TInt _, TStr _ => Lt
  | TStr _, TInt _ => Gt
  end.

Fixpoint key_compare (k1 k2 : list token) : comparison :=
  match k1, k2 with
  | [], [] => Eq
  | [], _ :: _ => Lt
  | _ :: _, [] => Gt
  | a :: k1', b :: k2' =>
      match token_compare a b with
      | Eq => key_compare k1' k2'
      | c => c
      end
  end.

(** Keys whose elements alternate between strings and integers, starting
    with a string when [str_first] holds. *)
Fixpoint aligned (str_first : bool) (k : list token) : Prop :=
  match k with
  | [] => True
  | TStr _ :: k' => str_first = true ∧ aligned false k'
  | TInt _ :: k' => str_first = false ∧ aligned true k'
  end.


(** ** Paths file *)

(** The pair [(a, b)] as the tuple [split] is expected to give back. *)
Definition tuple_key (key : string * string) : list string := [key.1; key.2].

(** A path set with its keys seen as tuples. *)
Definition as_tuples (ps : dict (string * string) (list Path))
    : dict (list string) (list Path) :=
  prod_map tuple_key id <$> ps.

(** No character of [s] is [c]. *)
Definition free_of (c : ascii) (s : string) : bool :=
  forallb_string (fun a => negb (Ascii.eqb a c)) s.

(** ** Sample networks *)

(** Three links in a row. *)
Definition chain3 : list NetworkLink.t :=
  [NetworkLink.mk "A" "n1" "n2" 10;
   NetworkLink.mk "B" "n2" "n3" 20;
   NetworkLink.mk "C" "n3" "n4" 30].

Definition chain3_loaded : NetworkAnalyzer := load_network init chain3.

(** A triangle [n0 n1 n2] with a pendant link at [n0]. *)
Definition tri4 : list NetworkLink.t :=
  [NetworkLink.mk "A" "n0" "n1" 2;
   NetworkLink.mk "B" "n0" "n2" 1;
   NetworkLink.mk "C" "n0" "n3" 1;
   NetworkLink.mk "D" "n1" "n2" 1].

Definition tri4_loaded : NetworkAnalyzer := load_network init tri4.

(** The same analyzer after the searches, at the end of the run, and the
    matrices of the run. *)
Definition tri4_searched : NetworkAnalyzer :=
  match find_all_paths tri4_loaded with
  | Ok analyzer => analyzer
  | Raise _ => init
  end.

Definition tri4_analyzed : NetworkAnalyzer :=
  match analyze_network tri4 with
  | Ok (analyzer, _, _) => analyzer
  | Raise _ => init
  end.


(** Two links that share no node. *)
Definition islands : list NetworkLink.t :=
  [NetworkLink.mk "P" "a" "b" 5; NetworkLink.mk "Q" "c" "d" 7].

Definition islands_loaded : NetworkAnalyzer := load_network init islands.

(** One link, as short as a binary64 length can be. *)
Definition speck : list NetworkLink.t := [NetworkLink.mk "X" "n1" "n2" 0x1p-1074].

Definition speck_loaded : NetworkAnalyzer := load_network init speck.

(** Three links named as in the natural-ordering example, loaded in
    lexicographic order. *)
Definition numbered : list NetworkLink.t :=
  [NetworkLink.mk "L1" "n1" "n2" 1;
   NetworkLink.mk "L10" "n2" "n3" 1;
   NetworkLink.mk "L2" "n3" "n4" 1].

Definition numbered_analyzed : NetworkAnalyzer :=
  match analyze_network numbered with
  | Ok (analyzer, _, _) => analyzer
  | Raise _ => init
  end.

(** Two links in a row, one of them with a comma in its identifier. *)
Definition comma : list NetworkLink.t :=
  [NetworkLink.mk "P,1" "n1" "n2" 1; NetworkLink.mk "P2" "n2" "n3" 1].

Definition comma_searched : NetworkAnalyzer :=
  match find_all_paths (load_network init comma) with
  | Ok analyzer => analyzer
  | Raise _ => init
  end.

(** * Properties *)

(** ** Dictionaries *)

Section PyDictFacts.
Context {K V : Type} `{EqDecision K}.
Implicit Types (d : dict K V) (k : K) (v : V).

Lemma dict_get_set d k v k' :
dict_get (dict_set d k v) k' = if decide (k' = k) then Some v else dict_get d k'.
Proof.
induction d as [|[k0 v0] d IH]; simpl.
- by destruct (decide (k' = k)).
- destruct (decide (k = k0)) as [->|Hne]; simpl.
+ by destruct (decide (k' = k0)).
+ destruct (decide (k' = k0)) as [->|]; [|done].
by destruct (decide (k0 = k)); [subst|].
Qed.

Lemma dict_get_None d k : dict_get d k = None ↔ k ∉ keys d.
Proof.
unfold keys. induction d as [|[k0 v0] d IH]; simpl.
- split; [intros _; apply not_elem_of_nil | done].
- rewrite not_elem_of_cons. destruct (decide (k = k0)); naive_solver.
Qed.

Lemma dict_get_Some_elem d k v : dict_get d k = Some v → (k, v) ∈ d.
Proof.
induction d as [|[k0 v0] d IH]; simpl; [done|].
destruct (decide (k = k0)) as [->|].
- intros [= ->]. left.
- intros. right. auto.
Qed.

Lemma dict_get_elem d k v : NoDup (keys d) → (k, v) ∈ d → dict_get d k = Some v.
Proof.
unfold keys. induction d as [|[k0 v0] d IH]; simpl.
- intros _ Hin. by apply elem_of_nil in Hin.
- rewrite NoDup_cons. intros [Hk0 Hnd] [[= -> ->]|Hin]%elem_of_cons.
+ by rewrite decide_True.
+ rewrite decide_False; [auto|].
intros ->. apply Hk0. apply list_elem_of_fmap. by exists (k0, v).
Qed.

Lemma dict_get_is_Some d k : is_Some (dict_get d k) ↔ k ∈ keys d.
Proof.
destruct (dict_get d k) eqn:E.
- split; [intros _|by eauto].
apply dict_get_Some_elem in E. apply list_elem_of_fmap. by eexists (_, _).
- apply dict_get_None in E. split; [by intros [? ?]|done].
Qed.

Lemma dict_set_fresh d k v : k ∉ keys d → dict_set d k v = d ++ [(k, v)].
Proof.
unfold keys. induction d as [|[k0 v0] d IH]; simpl; [done|].
rewrite not_elem_of_cons. intros [Hne Hk].
rewrite decide_False by done. by rewrite IH.
Qed.

Lemma keys_dict_set d k v :
keys (dict_set d k v) = if decide (k ∈ keys d) then keys d else keys d ++ [k].
Proof.
unfold keys. induction d as [|[k0 v0] d IH].
- rewrite decide_False; [done | apply not_elem_of_nil].
- cbn [dict_set]. destruct (decide (k = k0)) as [->|Hne]; rewrite !fmap_cons; cbn [fst].
+ rewrite decide_True; [done | left].
+ rewrite IH. destruct (decide (k ∈ d.*1)).
* rewrite decide_True; [done | by right].
* rewrite decide_False; [done|]. rewrite not_elem_of_cons. done.
Qed.


End PyDictFacts.

(** ** Graph builder *)

Lemma adjacent_graph_append graph n e n' neighbor link :
  adjacent (graph_append graph n e) n' neighbor link ↔
  adjacent graph n' neighbor link ∨ (n' = n ∧ (neighbor, link) = e).
Proof.
  unfold adjacent, graph_append. destruct (decide (n' = n)) as [->|Hne].
  - rewrite lookup_insert_eq. simpl. rewrite elem_of_app, list_elem_of_singleton.
    naive_solver.
  - rewrite lookup_insert_ne by done. naive_solver.
Qed.

Lemma adjacent_add_link graph l n neighbor link :
  adjacent (add_link graph l) n neighbor link ↔
  adjacent graph n neighbor link ∨ realizes l n neighbor link.
Proof.
  unfold add_link, realizes. rewrite !adjacent_graph_append. naive_solver.
Qed.

Lemma adjacent_fold_add_link ls : ∀ graph n neighbor link,
  adjacent (fold_left add_link ls graph) n neighbor link ↔
  adjacent graph n neighbor link ∨ ∃ l, l ∈ ls ∧ realizes l n neighbor link.
Proof.
  induction ls as [|l ls IH]; intros graph n neighbor link; simpl.
  - split; [by left | intros [?|(l & Hl & _)]; [done | by apply elem_of_nil in Hl]].
  - rewrite IH, adjacent_add_link. split.
    + intros [[?|?]|(l' & ? & ?)]; [by left | right; exists l | right; exists l'];
        (split; [|done]); [left | by right].
    + intros [?|(l' & [->|?]%elem_of_cons & ?)]; [by left; left | by left; right |].
      right. by exists l'.
Qed.

(** The graph builder's contract: the entries under a node are exactly
    the links that end there, each pointing at its other end. *)
Lemma adjacent_build_graph self n neighbor link :
  adjacent (_build_graph self) n neighbor link ↔
  ∃ l, l ∈ values (links self) ∧ realizes l n neighbor link.
Proof.
  unfold _build_graph. rewrite adjacent_fold_add_link. split; [|by right].
  intros [H|H]; [|done]. unfold adjacent in H. rewrite lookup_empty in H.
  by apply elem_of_nil in H.
Qed.

Lemma length_directed_edges self :
  length (directed_edges self) = 2 * length (links self).
Proof.
  unfold directed_edges, values. induction (links self) as [|kv d IH]; [done|].
  rewrite fmap_cons. cbn [mbind list_bind]. rewrite length_app. simpl in *. lia.
Qed.

Lemma adjacent_directed_edges self n neighbor link :
  adjacent (_build_graph self) n neighbor link → (n, neighbor) ∈ directed_edges self.
Proof.
  rewrite adjacent_build_graph. intros (l & Hl & _ & Hdir).
  unfold directed_edges. apply list_elem_of_bind. exists l. split; [|done].
  destruct Hdir as [[-> ->]|[-> ->]]; [left | right; left].
Qed.

Lemma consistent_spec self :
  consistent self = true ↔
  NoDup (keys (links self)) ∧ ∀ k l, (k, l) ∈ links self → NetworkLink.id l = k.
Proof.
  unfold consistent. rewrite andb_true_iff, bool_decide_eq_true, forallb_forall.
  split; intros [Hnd Hid]; (split; [done|]).
  - intros k l Hin. apply list_elem_of_In, Hid in Hin. by apply bool_decide_eq_true in Hin.
  - intros [k l] Hin%list_elem_of_In. apply bool_decide_eq_true. by apply Hid.
Qed.

Lemma link_ids_consistent self l :
  consistent self = true → l ∈ values (links self) → NetworkLink.id l ∈ keys (links self).
Proof.
  intros [_ Hid]%consistent_spec ([k l'] & -> & Hin)%list_elem_of_fmap.
  apply list_elem_of_fmap. exists (k, l'). split; [|done]. simpl. by apply Hid.
Qed.



(** ** Path enumerator: one iteration *)

Section Step.
Variables (graph : Graph) (end_link : string).

(** What the inner [for] leaves behind: the entries it appended, in
order, one for each new neighbour, and the pairs it marked. *)
Lemma visit_fold current_node path adj : ∀ q v,
∃ new,
fold_left (visit current_node path) adj (q, v)
= (q ++ new, v ∪ list_to_set (pair current_node <$> new.*1)) ∧
Forall (λ e, ∃ neighbor link,
      e = (neighbor, path ++ [link]) ∧ (neighbor, link) ∈ adj ∧ link ∉ path) new ∧
NoDup new.*1 ∧
(∀ neighbor, neighbor ∈ new.*1 → (current_node, neighbor) ∉ v).
Proof.
induction adj as [|[neighbor link] adj IH]; intros q v.
- exists []. simpl. rewrite app_nil_r. split_and!.
+ f_equal. set_solver.
+ constructor.
+ constructor.
+ intros ? H. by apply elem_of_nil in H.
- cbn [fold_left]. unfold visit at 2. cbn [fst snd].
destruct (bool_decide (link ∉ path)) eqn:Hl;
[destruct (bool_decide ((current_node, neighbor) ∉ v)) eqn:Hv|]; cbn [andb].
+ apply bool_decide_eq_true in Hl, Hv.
destruct (IH (q ++ [(neighbor, path ++ [link])]) (v ∪ {[(current_node, neighbor)]}))
as (new & Heq & Hall & Hnd & Hfresh).
exists ((neighbor, path ++ [link]) :: new). split_and!.
* rewrite Heq, <-app_assoc. simpl. f_equal. set_solver.
* constructor; [exists neighbor, link; split_and!; [done | left | done]|].
eapply Forall_impl; [exact Hall|]. intros e (n' & l' & ? & ? & ?).
exists n', l'. split_and!; [done | by right | done].
* rewrite fmap_cons. apply NoDup_cons. split; [|done].
intros Hin. apply Hfresh in Hin. set_solver.
* intros n' [->|Hin]%elem_of_cons; [done|]. apply Hfresh in Hin. set_solver.
+ destruct (IH q v) as (new & Heq & Hall & Hnd & Hfresh).
exists new. split_and!; [done | | done | done].
eapply Forall_impl; [exact Hall|]. intros e (n' & l' & ? & ? & ?).
exists n', l'. split_and!; [done | by right | done].
+ destruct (IH q v) as (new & Heq & Hall & Hnd & Hfresh).
exists new. split_and!; [done | | done | done].
eapply Forall_impl; [exact Hall|]. intros e (n' & l' & ? & ? & ?).
exists n', l'. split_and!; [done | by right | done].
Qed.

Lemma bfs_step_spec st st' : bfs_step graph end_link st = Some st' → step_spec graph end_link st st'.
Proof.
unfold bfs_step. destruct (queue st) as [|[current_node path] rest] eqn:Hq; [done|].
destruct (bool_decide (last path = Some end_link)) eqn:Hlast.
- apply bool_decide_eq_true in Hlast. intros [= <-]. by eapply step_record.
- apply bool_decide_eq_false in Hlast. intros [= <-].
destruct (visit_fold current_node path (default [] (graph !! current_node))
        rest (visited st)) as (new & Heq & Hall & Hnd & Hfresh).
rewrite Heq. by eapply step_expand.
Qed.

Lemma bfs_step_None st : bfs_step graph end_link st = None ↔ queue st = [].
Proof.
unfold bfs_step. destruct (queue st) as [|[current_node path] rest]; [done|].
by destruct (bool_decide _).
Qed.

Lemma bfs_step_is_Some st : queue st ≠ [] → is_Some (bfs_step graph end_link st).
Proof.
intros Hq. destruct (bfs_step graph end_link st) eqn:E; [by eauto|].
by apply bfs_step_None in E.
Qed.
End Step.

(** ** Path enumerator: the loop *)

Section Loop.
Variables (graph : Graph) (end_link : string).

(** A property kept by every iteration holds when the loop exits. *)
Lemma bfs_while_invariant (P : bfs_state → Prop) :
(∀ st st', P st → bfs_step graph end_link st = Some st' → P st') →
∀ fuel st ps, P st → bfs_while fuel graph end_link st = Ok ps →
∃ final, P final ∧ queue final = [] ∧ found final = ps.
Proof.
intros Hstep. induction fuel as [|fuel IH]; intros st ps HP; simpl;
destruct (bfs_step graph end_link st) as [st'|] eqn:E; try done.
- intros [= <-]. exists st. by rewrite <-bfs_step_None.
- eauto.
- intros [= <-]. exists st. by rewrite <-bfs_step_None.
Qed.

Lemma bfs_iter_invariant (P : bfs_state → Prop) :
(∀ st st', P st → bfs_step graph end_link st = Some st' → P st') →
∀ n st st', P st → bfs_iter n graph end_link st = Some st' → P st'.
Proof.
intros Hstep. induction n as [|n IH]; intros st st' HP; simpl.
- by intros [= <-].
- destruct (bfs_step graph end_link st) as [st1|] eqn:E; [|done]. simpl. eauto.
Qed.

(** Running on from an intermediate state gives the same result. *)
Lemma bfs_while_iter n : ∀ fuel st st' ps,
bfs_iter n graph end_link st = Some st' →
bfs_while fuel graph end_link st = Ok ps →
bfs_while (fuel - n) graph end_link st' = Ok ps.
Proof.
induction n as [|n IH]; intros fuel st st' ps; simpl.
- intros [= <-]. by rewrite Nat.sub_0_r.
- destruct (bfs_step graph end_link st) as [st1|] eqn:E; [|done]. simpl.
intros Hiter. destruct fuel as [|fuel]; simpl; rewrite E; [done|]. eauto.
Qed.

Section Measure.
Variable E : gset (string * string).
Hypothesis graph_in_E :
∀ n neighbor link, adjacent graph n neighbor link → (n, neighbor) ∈ E.

Lemma size_mark v current_node : ∀ neighbors,
NoDup neighbors →
(∀ n, n ∈ neighbors → (current_node, n) ∈ E ∧ (current_node, n) ∉ v) →
size (E ∖ (v ∪ list_to_set (pair current_node <$> neighbors))) + length neighbors
= size (E ∖ v).
Proof.
induction neighbors as [|n ns IH]; intros Hnd Hn.
- simpl. rewrite Nat.add_0_r. f_equal. set_solver.
- apply NoDup_cons in Hnd as [Hn_ns Hnd].
rewrite <-IH; [|done | intros; apply Hn; by right].
destruct (Hn n) as [HnE Hnv]; [left|].
set (W := v ∪ list_to_set (pair current_node <$> ns)).
assert ((current_node, n) ∉ W) as HnW.
{ unfold W. rewrite not_elem_of_union, elem_of_list_to_set, list_elem_of_fmap.
split; [done|]. intros (n' & [= <-] & ?). done. }
set (R := E ∖ (v ∪ list_to_set (pair current_node <$> n :: ns))).
assert (E ∖ W = {[(current_node, n)]} ∪ R) as ->.
{ apply set_eq. intros x. unfold R, W in *. rewrite fmap_cons, list_to_set_cons.
destruct (decide (x = (current_node, n))) as [->|]; set_solver. }
assert ({[(current_node, n)]} ## R) as Hdisj.
{ unfold R. rewrite fmap_cons, list_to_set_cons. set_solver. }
rewrite (size_union _ _ Hdisj), size_singleton. simpl. lia.
Qed.

(** Every iteration pops one entry and marks one pair of [E] per
entry it appends. *)
Lemma step_measure st st' :
bfs_step graph end_link st = Some st' →
length (queue st') + 1 = length (queue st) + appended graph end_link st ∧
size (E ∖ visited st') + appended graph end_link st = size (E ∖ visited st).
Proof.
intros Hstep. unfold appended. rewrite Hstep.
destruct (bfs_step_spec _ _ _ _ Hstep)
as [c p rest Hq Hlast ->|c p rest new Hq Hlast -> Hall Hnd Hfresh];
rewrite Hq; cbn [queue visited length].
- split; [lia|]. replace (length rest + 1 - S (length rest)) with 0 by lia. lia.
- rewrite length_app. replace (length rest + length new + 1 - S (length rest))
with (length new) by lia. split; [lia|].
rewrite <-(length_fmap fst new). apply size_mark; [done|].
intros n Hn. split; [|by apply Hfresh].
apply list_elem_of_fmap in Hn as ([n' path'] & -> & Hin).
rewrite Forall_forall in Hall. destruct (Hall _ Hin) as (n'' & l & [= -> ->] & Hadj & _).
by eapply graph_in_E.
Qed.

Lemma step_visited st st' :
visited st ⊆ E → bfs_step graph end_link st = Some st' → visited st' ⊆ E.
Proof.
intros Hsub Hstep.
destruct (bfs_step_spec _ _ _ _ Hstep)
as [c p rest Hq Hlast ->|c p rest new Hq Hlast -> Hall Hnd Hfresh]; [done|].
cbn [visited]. apply union_subseteq. split; [done|].
intros x (n & -> & ([n' path] & -> & Hin)%list_elem_of_fmap)%elem_of_list_to_set%list_elem_of_fmap.
rewrite Forall_forall in Hall.
destruct (Hall _ Hin) as (n'' & l & [= -> ->] & Hadj & _). by eapply graph_in_E.
Qed.

(** The loop exits, after one iteration per entry that was ever in the
queue, and no more entries are appended than [E] has unmarked pairs. *)
Lemma bfs_exits : ∀ (k : nat) st,
(length (queue st) + size (E ∖ visited st) ≤ k)%nat →
∃ n final,
bfs_iter n graph end_link st = Some final ∧ queue final = [] ∧
n = length (queue st) + appends n graph end_link st ∧
size (E ∖ visited final) + appends n graph end_link st = size (E ∖ visited st) ∧
∀ fuel, (n ≤ fuel)%nat → bfs_while fuel graph end_link st = Ok (found final).
Proof.
assert (∀ st, bfs_step graph end_link st = None →
∃ n final,
bfs_iter n graph end_link st = Some final ∧ queue final = [] ∧
n = length (queue st) + appends n graph end_link st ∧
size (E ∖ visited final) + appends n graph end_link st = size (E ∖ visited st) ∧
∀ fuel, (n ≤ fuel)%nat → bfs_while fuel graph end_link st = Ok (found final))
as Hexit.
{ intros st Hstep. exists 0, st. pose proof Hstep as Hq%bfs_step_None.
split_and!; [done | done | simpl; by rewrite Hq | simpl; lia |].
intros fuel _. destruct fuel; simpl; by rewrite Hstep. }
induction k as [|k IH]; intros st Hk;
(destruct (bfs_step graph end_link st) as [st'|] eqn:Hstep; [|by apply Hexit]).
- assert (queue st = []) as Hq by (apply length_zero_iff_nil; lia).
apply (bfs_step_None graph end_link) in Hq. congruence.
- destruct (step_measure _ _ Hstep) as [Hlen Hsize].
destruct (IH st') as (n & final & Hiter & Hq & Hn & Happ & Hwhile); [lia|].
exists (S n), final. simpl. rewrite Hstep. simpl.
split_and!; [done | done | lia | lia |].
intros [|fuel] Hfuel; [lia|]. simpl. rewrite Hstep. apply Hwhile. lia.
Qed.
End Measure.
End Loop.

Lemma size_list_to_set_le (l : list (string * string)) :
  (size (list_to_set l : gset (string * string)) ≤ length l)%nat.
Proof.
  induction l as [|x l IH].
  - rewrite list_to_set_nil, size_empty. done.
  - rewrite list_to_set_cons, size_union_alt, size_singleton. cbn [length].
    assert (size (list_to_set l ∖ {[x]} : gset (string * string))
            ≤ size (list_to_set l : gset (string * string)))%nat
      by (apply subseteq_size; set_solver).
    lia.
Qed.

(** One query, from any seed record: the run of the loop and its counts. *)
Lemma bfs_run (self : NetworkAnalyzer) (start_link_data : NetworkLink.t)
    (start_link end_link : string) :
  let graph := _build_graph self in
  let st0 := bfs_init start_link_data start_link in
  ∃ n final,
    bfs_iter n graph end_link st0 = Some final ∧
    queue final = [] ∧
    n = 2 + appends n graph end_link st0 ∧
    size (visited final) = appends n graph end_link st0 ∧
    visited final ⊆ list_to_set (directed_edges self) ∧
    (appends n graph end_link st0 ≤ 2 * length (links self))%nat ∧
    bfs_while (bfs_fuel self) graph end_link st0 = Ok (found final).
Proof.
  intros graph st0.
  set (E := list_to_set (directed_edges self) : gset (string * string)).
  assert (∀ n neighbor link, adjacent graph n neighbor link → (n, neighbor) ∈ E) as HE.
  { intros n neighbor link Hadj. apply elem_of_list_to_set.
    by eapply adjacent_directed_edges. }
  assert (size E ≤ 2 * length (links self))%nat as HsizeE.
  { rewrite <-length_directed_edges. apply size_list_to_set_le. }
  destruct (bfs_exits graph end_link E HE (2 + size E) st0)
    as (n & final & Hiter & Hq & Hn & Happ & Hwhile).
  { simpl. assert (size (E ∖ ∅) ≤ size E)%nat by (apply subseteq_size; set_solver). lia. }
  assert (visited final ⊆ E) as HvE.
  { assert (visited st0 ⊆ E) as H0 by (unfold st0; cbn; set_solver).
    refine (bfs_iter_invariant graph end_link (λ st, visited st ⊆ E) _ n st0 final H0 Hiter).
    intros st st'. by apply step_visited. }
  assert (size (visited final) = appends n graph end_link st0) as Hcount.
  { rewrite size_difference in Happ by done.
    replace (E ∖ visited st0) with E in Happ by (simpl; set_solver).
    apply subseteq_size in HvE. lia. }
  pose proof (subseteq_size _ _ HvE) as Hle.
  exists n, final. split_and!; try done.
  - lia.
  - apply Hwhile. unfold bfs_fuel. simpl in Hn. lia.
Qed.

(** C1. The path enumerator terminates on every network, cyclic or not:
    whatever link record and identifiers a query starts from, its [while]
    exits after some number [n] of iterations; [n] is the two seeds plus
    one per appended entry, the appended entries are no more than the
    directed edges (two per link) because each marks a pair not marked
    before, and so the search returns its paths and never needs more
    iterations than [bfs_fuel] grants. *)
Theorem bfs_paths_terminates (self : NetworkAnalyzer) (start_link_data : NetworkLink.t)
    (start_link end_link : string) :
  let graph := _build_graph self in
  let st0 := bfs_init start_link_data start_link in
  ∃ n final,
    bfs_iter n graph end_link st0 = Some final ∧
    queue final = [] ∧
    n = 2 + appends n graph end_link st0 ∧
    size (visited final) = appends n graph end_link st0 ∧
    visited final ⊆ list_to_set (directed_edges self) ∧
    (appends n graph end_link st0 ≤ 2 * length (links self))%nat ∧
    bfs_while (bfs_fuel self) graph end_link st0 = Ok (found final) ∧
    bfs_paths self graph start_link end_link ≠ Raise FuelExhausted.
Proof.
  intros graph st0.
  destruct (bfs_run self start_link_data start_link end_link)
    as (n & final & Hiter & Hq & Hn & Hcount & HvE & Hle & Hwhile).
  exists n, final. split_and!; try done.
  unfold bfs_paths, dict_item. destruct (dict_get (links self) start_link) as [d|]; [|done].
  destruct (bfs_run self d start_link end_link) as (? & final' & _ & _ & _ & _ & _ & _ & Hw).
  cbn -[bfs_while bfs_fuel bfs_init _build_graph]. fold graph in Hw.
  by rewrite Hw.
Qed.

(** ** Path enumerator: what is recorded *)

Section Shape.
Variables (self : NetworkAnalyzer) (start_link end_link : string).
Hypothesis self_consistent : consistent self = true.
Hypothesis start_known : start_link ∈ keys (links self).

Lemma well_formed_snoc path link :
well_formed self start_link path → link ∉ path → link ∈ keys (links self) →
well_formed self start_link (path ++ [link]).
Proof.
intros (Hhead & Hin & Hnd) Hfresh Hlink. split_and!.
- apply head_Some in Hhead as [path' ->]. done.
- intros x [?| ->%list_elem_of_singleton]%elem_of_app; auto.
- apply NoDup_app. split_and!; [done | | apply NoDup_singleton].
intros x Hx ->%list_elem_of_singleton. done.
Qed.

Lemma shape_init data : shape_invariant self start_link end_link (bfs_init data start_link).
Proof.
split; [|intros path H; by apply elem_of_nil in H].
intros n path Hin. assert (path = [start_link]) as ->.
{ simpl in Hin. rewrite !elem_of_cons in Hin.
destruct Hin as [[= _ ->]|[[= _ ->]|H]]; [done | done | by apply elem_of_nil in H]. }
split_and!; [done | | apply NoDup_singleton].
by intros link ->%list_elem_of_singleton.
Qed.

Lemma shape_step st st' :
shape_invariant self start_link end_link st →
bfs_step (_build_graph self) end_link st = Some st' →
shape_invariant self start_link end_link st'.
Proof.
intros [Hqueue Hfound] Hstep.
destruct (bfs_step_spec _ _ _ _ Hstep)
as [c p rest Hq Hlast ->|c p rest new Hq Hlast -> Hall Hnd Hfresh];
rewrite Hq in Hqueue; split; cbn [queue found].
- intros n path Hin. apply (Hqueue n). by right.
- intros path [Hin| ->%list_elem_of_singleton]%elem_of_app; [auto|].
split; [|done]. apply (Hqueue c). left.
- intros n path [Hin|Hin]%elem_of_app; [apply (Hqueue n); by right|].
rewrite Forall_forall in Hall.
destruct (Hall _ Hin) as (n' & link & [= -> ->] & Hadj & Hfresh').
apply well_formed_snoc; [apply (Hqueue c); left | done |].
apply adjacent_build_graph in Hadj as (l & Hl & -> & _).
by apply link_ids_consistent.
- done.
Qed.
End Shape.

(** C2. Every path the enumerator returns for a query starts with the
    source link and ends with the target link, names only links of the
    loaded network and names none of them twice; and the enumerator does
    return, for every source link of the network. *)
Theorem bfs_paths_well_formed (self : NetworkAnalyzer) (start_link end_link : string)
    (start_link_data : NetworkLink.t) :
  consistent self = true →
  dict_get (links self) start_link = Some start_link_data →
  ∃ ps, bfs_paths self (_build_graph self) start_link end_link = Ok ps ∧
    ∀ path, path ∈ ps →
      head path = Some start_link ∧
      last path = Some end_link ∧
      (∀ link, link ∈ path → link ∈ keys (links self)) ∧
      NoDup path.
Proof.
  intros Hc Hstart.
  destruct (bfs_run self start_link_data start_link end_link)
    as (n & final & _ & _ & _ & _ & _ & _ & Hwhile).
  exists (found final). unfold bfs_paths, dict_item. rewrite Hstart. split; [exact Hwhile|].
  assert (start_link ∈ keys (links self)) as Hkey by (apply dict_get_is_Some; eauto).
  destruct (bfs_while_invariant (_build_graph self) end_link
              (shape_invariant self start_link end_link)
              (shape_step self start_link end_link Hc)
              _ _ _ (shape_init self start_link end_link Hkey start_link_data) Hwhile)
    as (final' & [_ Hfound] & _ & Heq).
  intros path Hin. rewrite <-Heq in Hin.
  destruct (Hfound path Hin) as [(? & ? & ?) ?]. done.
Qed.

Lemma bfs_paths_well_formed_witness :
  consistent tri4_loaded = true ∧
  dict_get (links tri4_loaded) "C" = Some (NetworkLink.mk "C" "n0" "n3" 1) ∧
  ∃ ps, bfs_paths tri4_loaded (_build_graph tri4_loaded) "C" "D" = Ok ps ∧
    ∀ path, path ∈ ps →
      head path = Some "C" ∧
      last path = Some "D" ∧
      (∀ link, link ∈ path → link ∈ keys (links tri4_loaded)) ∧
      NoDup path.
Proof.
  split; [reflexivity|]. split; [reflexivity|].
  apply (bfs_paths_well_formed tri4_loaded "C" "D" (NetworkLink.mk "C" "n0" "n3" 1));
    reflexivity.
Defined.

(** ** Path enumerator: discovery order *)

Section Order.
Variables (graph : Graph) (end_link : string).



Lemma layered_init data start_link : layered (bfs_init data start_link).
Proof.
split.
- unfold profile. simpl. repeat constructor.
- simpl. intros a b Ha Hb. rewrite !elem_of_cons in Ha, Hb.
destruct Ha as [->|[->|Ha]]; [| |by apply elem_of_nil in Ha];
(destruct Hb as [->|[->|Hb]]; [lia | lia | by apply elem_of_nil in Hb]).
Qed.

Lemma layered_step st st' :
layered st → bfs_step graph end_link st = Some st' → layered st'.
Proof.
unfold layered, profile. intros [Hsorted Hnear] Hstep.
destruct (bfs_step_spec _ _ _ _ Hstep)
as [c p rest Hq Hlast ->|c p rest new Hq Hlast -> Hall Hnd Hfresh];
rewrite Hq in Hsorted, Hnear; cbn [queue found] in *;
rewrite !fmap_cons in Hsorted, Hnear; cbn [snd] in *.
- split.
+ by rewrite fmap_app, <-app_assoc.
+ intros a b Ha Hb. apply Hnear; by right.
- assert (length <$> new.*2 = replicate (length new) (S (length p))) as Hnew.
{ clear -Hall. induction Hall as [|e new (n & l & -> & _) _ IH]; [done|].
rewrite !fmap_cons, IH. cbn [snd length replicate]. rewrite length_app. simpl.
by rewrite Nat.add_1_r. }
apply StronglySorted_app in Hsorted as (Hcross & Hfound & Hqueue).
apply StronglySorted_cons in Hqueue as [Hhead Hrest].
rewrite Forall_forall in Hhead.
rewrite !fmap_app, Hnew. split.
+ apply StronglySorted_app. split_and!; [|done|].
* intros a b Ha [Hb|Hb%elem_of_replicate]%elem_of_app.
-- apply Hcross; [done | by right].
-- destruct Hb as [-> _]. assert (a ≤ length p)%nat by (apply Hcross; [done|left]).
   lia.
* apply StronglySorted_app. split_and!; [|done|].
-- intros a b Ha [-> _]%elem_of_replicate. apply Hnear; [by right | left].
-- clear. induction (length new) as [|k IH]; simpl; constructor; [done|].
   apply Forall_forall. intros b [-> _]%elem_of_replicate. done.
+ assert (∀ a, a ∈ (length <$> rest.*2) ++ replicate (length new) (S (length p)) →
        length p ≤ a ∧ a ≤ S (length p))%nat as Hband.
{ intros a [Ha|[-> _]%elem_of_replicate]%elem_of_app; [|lia].
split; [by apply Hhead | apply Hnear; [by right | left]]. }
intros a b Ha%Hband Hb%Hband. lia.
Qed.
End Order.

Lemma StronglySorted_le_lookup (l : list nat) :
  StronglySorted le l →
  ∀ i j a b, (i ≤ j)%nat → l !! i = Some a → l !! j = Some b → (a ≤ b)%nat.
Proof.
  induction 1 as [|x l Hsorted IH Hall]; intros i j a b Hij Hi Hj.
  - by rewrite lookup_nil in Hi.
  - destruct i as [|i], j as [|j]; simpl in *; simplify_eq; [lia | | lia | eapply IH; [|done..]; lia].
    rewrite Forall_forall in Hall. apply Hall. by eapply list_elem_of_lookup_2.
Qed.

Section Kept.
Variables (graph : Graph) (end_link : string).

Lemma bfs_step_found st st' path :
bfs_step graph end_link st = Some st' → path ∈ found st → path ∈ found st'.
Proof.
intros Hstep Hin.
destruct (bfs_step_spec _ _ _ _ Hstep) as [c p rest Hq Hlast ->|c p rest new Hq Hlast -> _ _ _];
cbn [found]; [apply elem_of_app; by left | done].
Qed.

Lemma bfs_while_found fuel : ∀ st ps path,
bfs_while fuel graph end_link st = Ok ps → path ∈ found st → path ∈ ps.
Proof.
induction fuel as [|fuel IH]; intros st ps path; simpl;
destruct (bfs_step graph end_link st) as [st'|] eqn:Hstep; try done.
- by intros [= <-].
- intros Hwhile Hin. eapply IH; [done|]. by eapply bfs_step_found.
- by intros [= <-].
Qed.

(** A popped path that ends with the target is in the result. *)
Lemma bfs_while_records fuel st ps current_node path :
bfs_while fuel graph end_link st = Ok ps →
head (queue st) = Some (current_node, path) →
last path = Some end_link →
path ∈ ps.
Proof.
intros Hwhile Hhead Hlast. apply head_Some in Hhead as [rest Hq].
destruct fuel as [|fuel]; simpl in Hwhile; unfold bfs_step in Hwhile;
rewrite Hq, bool_decide_eq_true_2 in Hwhile by done; [done|].
eapply bfs_while_found; [done|]. cbn [found]. apply elem_of_app. right. left.
Qed.
End Kept.

(** C6. The worklist is first-in first-out: every iteration removes the
    entry at the front of the queue and puts the new ones at the back.
    Hence the paths of a query are recorded by non-decreasing number of
    links, and every popped entry whose path ends with the target is in
    the result, whatever its length. *)
Theorem bfs_paths_breadth_first (self : NetworkAnalyzer) (start_link end_link : string)
    (start_link_data : NetworkLink.t) :
  dict_get (links self) start_link = Some start_link_data →
  let graph := _build_graph self in
  let st0 := bfs_init start_link_data start_link in
  ∃ ps, bfs_paths self graph start_link end_link = Ok ps ∧
    (∀ st st', bfs_step graph end_link st = Some st' →
       ∃ entry rest new, queue st = entry :: rest ∧ queue st' = rest ++ new) ∧
    (∀ i j p q, (i ≤ j)%nat → ps !! i = Some p → ps !! j = Some q →
       (length p ≤ length q)%nat) ∧
    (∀ k st current_node path,
       bfs_iter k graph end_link st0 = Some st →
       head (queue st) = Some (current_node, path) →
       last path = Some end_link →
       path ∈ ps).
Proof.
  intros Hstart graph st0.
  destruct (bfs_run self start_link_data start_link end_link)
    as (n & final & _ & _ & _ & _ & _ & _ & Hwhile).
  fold graph st0 in Hwhile.
  exists (found final). unfold bfs_paths, dict_item. rewrite Hstart. split; [exact Hwhile|].
  split_and!.
  - intros st st' Hstep.
    destruct (bfs_step_spec _ _ _ _ Hstep) as [c p rest Hq _ ->|c p rest new Hq _ -> _ _ _].
    + exists (c, p), rest, []. by rewrite app_nil_r.
    + by exists (c, p), rest, new.
  - destruct (bfs_while_invariant graph end_link layered (layered_step graph end_link)
                _ _ _ (layered_init start_link_data start_link) Hwhile)
      as (final' & [Hsorted _] & Hq & Heq).
    unfold profile in Hsorted. rewrite Hq, Heq, app_nil_r in Hsorted.
    intros i j p q Hij Hp Hq'.
    eapply (StronglySorted_le_lookup _ Hsorted i j); [done | |];
      rewrite list_lookup_fmap; [by rewrite Hp | by rewrite Hq'].
  - intros k st c path Hiter Hhead Hlast.
    eapply bfs_while_records; [|done..]. by eapply bfs_while_iter.
Qed.

Lemma bfs_paths_breadth_first_witness :
  dict_get (links tri4_loaded) "C" = Some (NetworkLink.mk "C" "n0" "n3" 1) ∧
  ∃ ps, bfs_paths tri4_loaded (_build_graph tri4_loaded) "C" "A" = Ok ps ∧
    (∀ st st', bfs_step (_build_graph tri4_loaded) "A" st = Some st' →
       ∃ entry rest new, queue st = entry :: rest ∧ queue st' = rest ++ new) ∧
    (∀ i j p q, (i ≤ j)%nat → ps !! i = Some p → ps !! j = Some q →
       (length p ≤ length q)%nat) ∧
    (∀ k st current_node path,
       bfs_iter k (_build_graph tri4_loaded) "A"
         (bfs_init (NetworkLink.mk "C" "n0" "n3" 1) "C") = Some st →
       head (queue st) = Some (current_node, path) →
       last path = Some "A" →
       path ∈ ps).
Proof.
  split; [reflexivity|].
  apply (bfs_paths_breadth_first tri4_loaded "C" "A" (NetworkLink.mk "C" "n0" "n3" 1)).
  reflexivity.
Defined.

(** In the triangle with a pendant link, the query from C to A records a
    two-link path and then a four-link one: both are kept. *)
Example tri4_paths_C_A :
  bfs_paths tri4_loaded (_build_graph tri4_loaded) "C" "A"
  = Ok [["C"; "A"]; ["C"; "B"; "D"; "A"]].
Proof. vm_compute. reflexivity. Qed.

(** ** Binary64 arithmetic

    What the distance formula needs of [PrimFloat], derived from the
    specification of the primitive operations in [SpecFloat]. *)

Section Binary64.
Local Open Scope Z_scope.

Lemma Prim2SF_inj x y : Prim2SF x = Prim2SF y → x = y.
Proof. intros H. by rewrite <-(SF2Prim_Prim2SF x), <-(SF2Prim_Prim2SF y), H. Qed.

Lemma fexp64 z : fexp prec emax z = Z.max (z - 53) (-1074).
Proof. reflexivity. Qed.

(** Rounding an exact 53-bit mantissa changes nothing. *)
Lemma round_exact_0 (m : positive) (e : Z) :
Z.pos (digits2_pos m) = 53 → -1074 ≤ e ≤ 971 →
binary_round_aux prec emax false (Z.pos m) e loc_Exact = S754_finite false m e.
Proof.
intros Hd He. unfold binary_round_aux, shr_fexp. cbn [Zdigits2 shr_record_of_loc].
rewrite Hd, fexp64. replace (Z.max (53 + e - 53) (-1074) - e) with 0 by lia.
cbn [shr shr_m loc_of_shr_record round_nearest_even Zdigits2].
rewrite Hd, fexp64. replace (Z.max (53 + e - 53) (-1074) - e) with 0 by lia.
cbn [shr shr_m]. replace (e <=? emax - prec) with true; [done|].
symmetry. apply Z.leb_le. change (emax - prec) with 971. lia.
Qed.

(** Rounding an even 54-bit mantissa drops its last bit, exactly. *)
Lemma round_exact_1 (m : positive) (e : Z) :
Z.pos (digits2_pos m) = 53 → -1075 ≤ e ≤ 970 →
binary_round_aux prec emax false (Z.pos m~0) e loc_Exact = S754_finite false m (e + 1).
Proof.
intros Hd He. unfold binary_round_aux, shr_fexp.
cbn [Zdigits2 shr_record_of_loc digits2_pos].
replace (Z.pos (Pos.succ (digits2_pos m))) with 54 by (rewrite Pos2Z.inj_succ; lia).
rewrite fexp64. replace (Z.max (54 + e - 53) (-1074) - e) with 1 by lia.
cbn [shr SpecFloat.iter_pos shr_1 orb shr_m loc_of_shr_record round_nearest_even Zdigits2].
rewrite Hd, fexp64. replace (Z.max (53 + (e + 1) - 53) (-1074) - (e + 1)) with 0 by lia.
cbn [shr shr_m]. replace (e + 1 <=? emax - prec) with true; [done|].
symmetry. apply Z.leb_le. change (emax - prec) with 971. lia.
Qed.

Lemma div_eucl_shiftl (m : positive) (k j : Z) :
0 ≤ j ≤ k →
Z.div_eucl (Z.shiftl (Z.pos m) k) (2 ^ j) = (Z.pos m * 2 ^ (k - j), 0).
Proof.
intros Hk. rewrite Z.shiftl_mul_pow2 by lia.
replace (Z.pos m * 2 ^ k) with ((Z.pos m * 2 ^ (k - j)) * 2 ^ j)
by (rewrite <-Z.mul_assoc, <-Z.pow_add_r by lia; do 2 f_equal; lia).
assert (2 ^ j ≠ 0) as Hnz by (apply Z.pow_nonzero; lia).
pose proof (Z.div_mul (Z.pos m * 2 ^ (k - j)) (2 ^ j) Hnz) as Hq.
pose proof (Z.mod_mul (Z.pos m * 2 ^ (k - j)) (2 ^ j) Hnz) as Hr.
unfold Z.div, Z.modulo in Hq, Hr.
destruct (Z.div_eucl _ _) as [q r]. by subst.
Qed.

Lemma range_normal64 x :
(0x1p-1021 <=? x)%float = true → (x <? infinity)%float = true →
∃ m e, normal64 x m e.
Proof.
rewrite leb_spec, ltb_spec. pose proof (Prim2SF_valid x) as Hv.
change (Prim2SF 0x1p-1021) with (S754_finite false 4503599627370496 (-1073)).
change (Prim2SF infinity) with (S754_infinity false).
destruct (Prim2SF x) as [s|s| |s m e] eqn:Hx; try discriminate.
- destruct s; discriminate.
- intros Hle _. exists m, e. unfold SFleb, SFcompare in Hle.
destruct s; [discriminate|].
cbn [valid_binary] in Hv. unfold bounded, canonical_mantissa in Hv.
apply andb_prop in Hv as [Hc Hb]. apply Z.eqb_eq in Hc. apply Z.leb_le in Hb.
rewrite fexp64 in Hc. change (emax - prec) with 971 in Hb.
assert (-1073 ≤ e).
{ destruct (Z.compare_spec (-1073) e); [lia | lia | discriminate]. }
split; [exact Hx|]. split; lia.
Qed.

Lemma half_normal64 x m e :
normal64 x m e → Prim2SF (x / 2)%float = S754_finite false m (e - 1).
Proof.
intros (Hx & Hd & He). rewrite div_spec, Hx.
change (Prim2SF 2) with (S754_finite false 4503599627370496 (-51)).
unfold SF64div, SFdiv, SFdiv_core_binary. cbn [Zdigits2 xorb].
rewrite Hd. change (Z.pos (digits2_pos 4503599627370496)) with 53.
rewrite fexp64. change 4503599627370496 with (2 ^ 52) at 1.
destruct (Z.eq_dec e (-1073)) as [->|Hne].
- change (-1073 - -51 - Z.min (Z.max (53 + -1073 - (53 + -51) - 53) (-1074)) (-1073 - -51))
with 52.
change (Z.min (Z.max (53 + -1073 - (53 + -51) - 53) (-1074)) (-1073 - -51)) with (-1074).
cbv iota. rewrite div_eucl_shiftl by lia. change (2 ^ (52 - 52)) with 1.
rewrite Z.mul_1_r. change (new_location 4503599627370496 0) with loc_Exact.
apply round_exact_0; [done | lia].
- replace (Z.min (Z.max (53 + e - (53 + -51) - 53) (-1074)) (e - -51)) with (e - 2) by lia.
replace (e - -51 - (e - 2)) with 53 by lia.
cbv iota. rewrite div_eucl_shiftl by lia. change (2 ^ (53 - 52)) with 2.
rewrite Z.mul_comm. change (2 * Z.pos m) with (Z.pos m~0).
change (new_location 4503599627370496 0) with loc_Exact.
rewrite round_exact_1 by (done || lia). f_equal. lia.
Qed.

Lemma double_half_normal64 x m e : normal64 x m e → (x / 2 + x / 2)%float = x.
Proof.
intros Hn. apply Prim2SF_inj. rewrite add_spec, (half_normal64 _ _ _ Hn).
destruct Hn as (Hx & Hd & He). rewrite Hx.
unfold SF64add, SFadd. rewrite Z.min_id. unfold shl_align. rewrite Z.sub_diag.
cbn [fst cond_Zopp]. replace (Z.pos m + Z.pos m) with (Z.pos m~0) by lia.
cbn [binary_normalize].
unfold binary_round, shl_align. cbn [digits2_pos].
replace (Z.pos (Pos.succ (digits2_pos m))) with 54 by (rewrite Pos2Z.inj_succ; lia).
rewrite fexp64. replace (Z.max (54 + (e - 1) - 53) (-1074) - (e - 1)) with 1 by lia.
rewrite round_exact_1 by (done || lia). f_equal. lia.
Qed.

Lemma sub_diag_normal64 x m e : normal64 x m e → (x - x)%float = 0%float.
Proof.
intros (Hx & Hd & He). apply Prim2SF_inj. rewrite sub_spec, Hx.
unfold SF64sub, SFsub. rewrite Z.min_id. unfold shl_align. rewrite Z.sub_diag.
cbn [fst cond_Zopp]. rewrite ?Z.sub_diag. reflexivity.
Qed.

Lemma add_zero_normal64 x m e : normal64 x m e → (0 + x)%float = x.
Proof.
intros (Hx & Hd & He). apply Prim2SF_inj. rewrite add_spec, Hx. reflexivity.
Qed.

(** The one-link distance on a length whose half is exact. *)
Lemma single_link_zero x :
halves_exactly x → (py_sum [x] - midpoint_correction x x)%float = 0%float.
Proof.
unfold py_sum, midpoint_correction. cbn [fold_left].
intros [Hz|[Hlo Hhi]].
- rewrite FloatAxioms.eqb_spec in Hz. change (Prim2SF 0) with (S754_zero false) in Hz.
assert (x = 0%float ∨ x = (-0)%float) as [-> | ->]; [|reflexivity..].
destruct (Prim2SF x) as [[]|[]| |[] m e] eqn:Hx; try discriminate;
[right | left]; by apply Prim2SF_inj.
- destruct (range_normal64 x Hlo Hhi) as (m & e & Hn).
rewrite (add_zero_normal64 _ _ _ Hn), (double_half_normal64 _ _ _ Hn).
by eapply sub_diag_normal64.
Qed.
End Binary64.

(** ** Distance calculator *)

Lemma mapM_Ok {A B} (f : A → result B) xs ys :
  mapM f xs = Ok ys ↔ Forall2 (λ x y, f x = Ok y) xs ys.
Proof.
  revert ys. induction xs as [|x xs IH]; intros ys; simpl.
  - split; [intros [= <-]; constructor | by inv 1].
  - destruct (f x) as [y|e] eqn:Hx; simpl.
    + destruct (mapM f xs) as [ys'|e] eqn:Hxs; simpl.
      * split.
        -- intros [= <-]. constructor; [done | by apply IH].
        -- inv 1. f_equal. f_equal; [congruence|].
           match goal with H : Forall2 _ xs _ |- _ => apply IH in H end. congruence.
      * split; [done|]. inv 1.
        match goal with H : Forall2 _ xs _ |- _ => apply IH in H end. congruence.
    + split; [done|]. inv 1. congruence.
Qed.

Lemma mapM_total {A B} (f : A → result B) xs :
  (∀ x, x ∈ xs → ∃ y, f x = Ok y) → ∃ ys, mapM f xs = Ok ys.
Proof.
  induction xs as [|x xs IH]; intros Hf; simpl; [by eexists|].
  destruct (Hf x) as [y ->]; [left|]. destruct IH as [ys ->]; [intros; apply Hf; by right|].
  by eexists.
Qed.

Lemma compute_path_distance_cons self first rest lengths first_length last_length :
  mapM (link_length self) (first :: rest) = Ok lengths →
  head lengths = Some first_length → last lengths = Some last_length →
  compute_path_distance self (first :: rest)
    = Ok (py_sum lengths - midpoint_correction first_length last_length)%float.
Proof.
  intros Hmap Hhead Hlast. pose proof Hmap as HF%mapM_Ok.
  assert (link_length self first = Ok first_length) as Hf.
  { destruct lengths; inv HF. simpl in Hhead. congruence. }
  assert (∃ last_link, last (first :: rest) = Some last_link ∧
            link_length self last_link = Ok last_length) as (last_link & Hll & Hl).
  { pose proof (Forall2_last _ _ _ HF) as H. rewrite Hlast in H. inv H. eauto. }
  unfold compute_path_distance. rewrite Hmap. cbn [mbind result_bind].
  rewrite Hf. cbn [mbind result_bind]. rewrite Hll. cbn [mbind result_bind]. rewrite Hl. done.
Qed.

(** C3, as the arithmetic of the code has it. The distance of a non-empty
    path whose links are all loaded is the left-to-right binary64 sum of
    the link lengths minus the sum of half the first and half the last
    length; the empty path has distance 0; a one-link path has distance
    exactly 0 when the length of its link is zero or a finite number from
    [2^-1021] up; and the chain of lengths 10, 20, 30 has distance 40. *)
Theorem compute_path_distance_formula (self : NetworkAnalyzer) (first : string)
    (rest : Path) (lengths : list float) :
  mapM (link_length self) (first :: rest) = Ok lengths →
  ∃ first_length last_length,
    head lengths = Some first_length ∧
    last lengths = Some last_length ∧
    compute_path_distance self (first :: rest)
      = Ok (py_sum lengths - (first_length / 2 + last_length / 2))%float ∧
    (rest = [] → halves_exactly first_length →
       compute_path_distance self [first] = Ok 0%float) ∧
    compute_path_distance self [] = Ok 0%float ∧
    compute_path_distance chain3_loaded ["A"; "B"; "C"] = Ok 40%float.
Proof.
  intros Hmap. pose proof Hmap as HF%mapM_Ok.
  pose proof (Forall2_last _ _ _ HF) as Hlast.
  destruct lengths as [|first_length lengths]; [by inv HF|].
  destruct (proj2 (last_is_Some (first_length :: lengths))) as [last_length El]; [done|].
  exists first_length, last_length. split_and!; [done | done | | | done | by vm_compute].
  - by apply compute_path_distance_cons.
  - intros -> Hx. inv HF. match goal with H : Forall2 _ [] _ |- _ => inv H end.
    simpl in El. injection El as <-.
    rewrite (compute_path_distance_cons self first [] [first_length] first_length first_length)
      by done.
    f_equal. by apply single_link_zero.
Qed.

Lemma compute_path_distance_formula_witness :
  mapM (link_length chain3_loaded) ["A"; "B"; "C"] = Ok [10; 20; 30]%float ∧
  ∃ first_length last_length,
    head [10; 20; 30]%float = Some first_length ∧
    last [10; 20; 30]%float = Some last_length ∧
    compute_path_distance chain3_loaded ["A"; "B"; "C"]
      = Ok (py_sum [10; 20; 30] - (first_length / 2 + last_length / 2))%float ∧
    (["B"; "C"] = [] → halves_exactly first_length →
       compute_path_distance chain3_loaded ["A"] = Ok 0%float) ∧
    compute_path_distance chain3_loaded [] = Ok 0%float ∧
    compute_path_distance chain3_loaded ["A"; "B"; "C"] = Ok 40%float.
Proof.
  split; [reflexivity|].
  apply (compute_path_distance_formula chain3_loaded "A" ["B"; "C"] [10; 20; 30]%float).
  reflexivity.
Defined.

(** The one-link path over a link of length [2^-1074]: half of that length
    rounds to 0, so nothing is subtracted and the distance is the length. *)
Lemma single_link_distance_not_zero :
  link_length speck_loaded "X" = Ok 0x1p-1074%float ∧
  ∃ d, compute_path_distance speck_loaded ["X"] = Ok d ∧ (d =? 0)%float = false.
Proof. split; [reflexivity|]. exists 0x1p-1074%float. split; reflexivity. Qed.

(** ** The order of binary64 numbers *)

Lemma SFltb_irrefl a : SFltb a a = false.
Proof.
  unfold SFltb, SFcompare. destruct a as [[]|[]| |[] m e]; try done;
    rewrite Z.compare_refl; change (Pos.compare_cont Eq m m) with (Pos.compare m m);
    by rewrite Pos.compare_refl.
Qed.

Lemma SFltb_trans a b c : SFltb a b = true → SFltb b c = true → SFltb a c = true.
Proof.
  unfold SFltb, SFcompare.
  destruct a as [[]|[]| |[] ma ea], b as [[]|[]| |[] mb eb], c as [[]|[]| |[] mc ec];
    try done;
    change (Pos.compare_cont Eq) with Pos.compare;
    destruct (Z.compare_spec ea eb), (Z.compare_spec eb ec), (Z.compare_spec ea ec);
    try done; try lia; subst;
    destruct (Pos.compare_spec ma mb), (Pos.compare_spec mb mc), (Pos.compare_spec ma mc);
    try done; lia.
Qed.

Lemma ltb_irrefl (x : float) : (x <? x)%float = false.
Proof. rewrite ltb_spec. apply SFltb_irrefl. Qed.

Lemma ltb_trans (x y z : float) :
  (x <? y)%float = true → (y <? z)%float = true → (x <? z)%float = true.
Proof. rewrite !ltb_spec. apply SFltb_trans. Qed.

(** [min] returns an element that no element is smaller than: whatever
    the floats are, [<] is irreflexive and transitive. *)
Lemma py_min_fold (xs : list float) : ∀ (m0 : float) (seen : list float),
  m0 ∈ seen → (∀ d, d ∈ seen → (d <? m0)%float = false) →
  let m := fold_left (λ m item, if (item <? m)%float then item else m) xs m0 in
  m ∈ seen ++ xs ∧ ∀ d, d ∈ seen ++ xs → (d <? m)%float = false.
Proof.
  induction xs as [|x xs IH]; intros m0 seen Hin Hmin; cbn [fold_left].
  - rewrite app_nil_r. done.
  - replace (seen ++ x :: xs) with ((seen ++ [x]) ++ xs) by by rewrite <-app_assoc.
    apply IH.
    + destruct (x <? m0)%float; apply elem_of_app; [right; left | by left].
    + intros d [Hd| ->%list_elem_of_singleton]%elem_of_app.
      * destruct (x <? m0)%float eqn:Hx; [|by apply Hmin].
        destruct (d <? x)%float eqn:Hdx; [|done].
        rewrite <-(Hmin d Hd). symmetry. by eapply ltb_trans.
      * destruct (x <? m0)%float eqn:Hx; [apply ltb_irrefl | done].
Qed.

Lemma py_min_spec (ds : list float) (m : float) :
  py_min ds = Ok m → m ∈ ds ∧ ∀ d, d ∈ ds → (d <? m)%float = false.
Proof.
  destruct ds as [|x xs]; [done|]. intros [= <-].
  apply (py_min_fold xs x [x]); [left|].
  intros d ->%list_elem_of_singleton. apply ltb_irrefl.
Qed.

Lemma py_min_total (ds : list float) : ds ≠ [] → ∃ m, py_min ds = Ok m.
Proof. destruct ds; [done|]. by eexists. Qed.

(** ** Ordered pairs of distinct links *)

Lemma elem_of_permutations2_from {A} (after : list A) : ∀ before x y,
  (x, y) ∈ permutations2_from before after ↔
  ∃ a1 a2, after = a1 ++ x :: a2 ∧ y ∈ before ++ a1 ++ a2.
Proof.
  induction after as [|z after IH]; intros before x y; cbn [permutations2_from].
  - split; [by intros ?%elem_of_nil | by intros ([|??] & ? & ? & _)].
  - rewrite elem_of_app, list_elem_of_fmap, IH. split.
    + intros [(y' & [= -> ->] & Hy)|(a1 & a2 & -> & Hy)].
      * by exists [], after.
      * exists (z :: a1), a2. split; [done|].
        rewrite <-app_assoc in Hy. set_solver.
    + intros ([|z' a1] & a2 & [= -> ->] & Hy).
      * left. by exists y.
      * right. exists a1, a2. split; [done|]. rewrite <-app_assoc. set_solver.
Qed.

Lemma elem_of_permutations2 {A} (xs : list A) x y :
  NoDup xs → (x, y) ∈ permutations2 xs ↔ x ∈ xs ∧ y ∈ xs ∧ x ≠ y.
Proof.
  intros Hnd. unfold permutations2. rewrite elem_of_permutations2_from. split.
  - intros (a1 & a2 & -> & Hy). simpl in Hy.
    apply NoDup_app in Hnd as (_ & Hdisj & [Hx _]%NoDup_cons).
    split_and!; [set_solver | set_solver |].
    intros ->. apply elem_of_app in Hy as [Hy|Hy]; [|done]. by apply (Hdisj y); [|left].
  - intros (Hx & Hy & Hne). apply list_elem_of_split in Hx as (a1 & a2 & ->).
    exists a1, a2. split; [done|]. set_solver.
Qed.

Lemma NoDup_permutations2_from {A} (after : list A) : ∀ before,
  NoDup (before ++ after) → NoDup (permutations2_from before after).
Proof.
  induction after as [|z after IH]; intros before Hnd; cbn [permutations2_from];
    [constructor|].
  apply NoDup_app. split_and!.
  - apply NoDup_fmap_2; [by intros ?? [=]|].
    apply NoDup_app in Hnd as (? & Hdisj & [? ?]%NoDup_cons).
    apply NoDup_app. split_and!; [done | | done]. intros x Hx Hx'. apply (Hdisj x Hx). by right.
  - intros [x y] (y' & [= -> ->] & _)%list_elem_of_fmap
      (a1 & a2 & -> & _)%elem_of_permutations2_from.
    apply NoDup_app in Hnd as (_ & _ & [Hz _]%NoDup_cons). set_solver.
  - apply IH. by rewrite <-app_assoc.
Qed.

Lemma NoDup_permutations2 {A} (xs : list A) : NoDup xs → NoDup (permutations2 xs).
Proof. intros. by apply NoDup_permutations2_from. Qed.

(** ** The path set *)

Lemma bfs_paths_links self self' graph start_link end_link :
  links self' = links self →
  bfs_paths self' graph start_link end_link = bfs_paths self graph start_link end_link.
Proof. intros H. unfold bfs_paths, bfs_fuel. by rewrite H. Qed.

Lemma bfs_paths_total self start_link end_link :
  start_link ∈ keys (links self) →
  ∃ ps, bfs_paths self (_build_graph self) start_link end_link = Ok ps.
Proof.
  intros [data Hdata]%dict_get_is_Some.
  destruct (bfs_run self data start_link end_link) as (n & final & _ & _ & _ & _ & _ & _ & Hw).
  exists (found final). unfold bfs_paths, dict_item. by rewrite Hdata.
Qed.

(** The loop of [find_all_paths] over pairs not yet in [self.paths]:
    one entry per pair, in order, holding what the search returns. *)
Lemma find_all_paths_loop self graph (pairs : list (string * string)) : ∀ acc,
  links acc = links self →
  NoDup pairs →
  (∀ p, p ∈ pairs → p ∉ keys (paths acc)) →
  (∀ p, p ∈ pairs → ∃ ps, bfs_paths self graph p.1 p.2 = Ok ps) →
  ∃ entries,
    foldM (λ self '(start_link, end_link),
             ps ← bfs_paths self graph start_link end_link;
             Ok (set_paths self (dict_set (paths self) (start_link, end_link) ps)))
          pairs acc
      = Ok (set_paths acc (paths acc ++ entries)) ∧
    entries.*1 = pairs ∧
    Forall (λ e, bfs_paths self graph e.1.1 e.1.2 = Ok e.2) entries.
Proof.
  induction pairs as [|[s t] pairs IH]; intros acc Hlinks Hnd Hfresh Htotal.
  - exists []. rewrite app_nil_r. by destruct acc.
  - apply NoDup_cons in Hnd as [Hst Hnd].
    destruct (Htotal (s, t)) as [ps Hps]; [left|]. simpl in Hps.
    cbn [foldM]. rewrite (bfs_paths_links self acc) by done. rewrite Hps.
    cbn [mbind result_bind]. rewrite dict_set_fresh by (apply Hfresh; left).
    destruct (IH (set_paths acc (paths acc ++ [(s, t, ps)]))) as (entries & -> & Hkeys & Hall).
    + done.
    + done.
    + intros p Hp. cbn [set_paths paths]. unfold keys. rewrite fmap_app.
      intros [Hin| ->%list_elem_of_singleton]%elem_of_app; [|done].
      by apply (Hfresh p); [right|].
    + intros p Hp. apply Htotal. by right.
    + exists ((s, t, ps) :: entries). split_and!.
      * cbn [set_paths paths links distances link_indices]. by rewrite <-app_assoc.
      * by rewrite fmap_cons, Hkeys.
      * by constructor.
Qed.

Lemma find_all_paths_spec self :
  consistent self = true → paths self = [] →
  ∃ entries,
    find_all_paths self = Ok (set_paths self entries) ∧
    entries.*1 = permutations2 (keys (links self)) ∧
    Forall (λ e, bfs_paths self (_build_graph self) e.1.1 e.1.2 = Ok e.2) entries.
Proof.
  intros [Hnd _]%consistent_spec Hempty. unfold find_all_paths.
  destruct (find_all_paths_loop self (_build_graph self)
              (permutations2 (keys (links self))) self) as (entries & Hfold & Hkeys & Hall).
  - done.
  - by apply NoDup_permutations2.
  - intros p _. rewrite Hempty. apply not_elem_of_nil.
  - intros [s t] [Hs _]%elem_of_permutations2; [|done]. by apply bfs_paths_total.
  - exists entries. by rewrite Hfold, Hempty.
Qed.

(** ** The distance table *)

Lemma link_length_links self self' link :
  links self' = links self → link_length self' link = link_length self link.
Proof. intros H. unfold link_length. by rewrite H. Qed.

Lemma compute_path_distance_links self self' path :
  links self' = links self →
  compute_path_distance self' path = compute_path_distance self path.
Proof.
  intros H. unfold compute_path_distance. destruct path as [|first rest]; [done|].
  assert (link_length self' = link_length self) as ->; [|done].
  unfold link_length. by rewrite H.
Qed.

Lemma compute_path_distance_total self path :
  (∀ link, link ∈ path → link ∈ keys (links self)) →
  ∃ d, compute_path_distance self path = Ok d.
Proof.
  intros Hknown. destruct path as [|first rest]; [by eexists|].
  destruct (mapM_total (link_length self) (first :: rest)) as [lengths Hmap].
  { intros link [data Hdata]%Hknown%dict_get_is_Some.
    unfold link_length, dict_item. rewrite Hdata. by eexists. }
  pose proof Hmap as HF%mapM_Ok.
  destruct lengths as [|first_length lengths]; [by inv HF|].
  destruct (proj2 (last_is_Some (first_length :: lengths))) as [last_length El]; [done|].
  eexists. by eapply compute_path_distance_cons.
Qed.

(** The loop of [compute_shortest_distances] over entries whose pairs are
    not yet in [self.distances]: the non-empty entries, in order, each
    with the [min] of its path distances. *)
Lemma compute_shortest_distances_loop self
    (entries : list ((string * string) * list Path)) : ∀ acc,
  links acc = links self →
  NoDup entries.*1 →
  (∀ e, e ∈ entries → e.1 ∉ keys (distances acc)) →
  (∀ e path link, e ∈ entries → path ∈ e.2 → link ∈ path → link ∈ keys (links self)) →
  ∃ new,
    foldM (λ self '(link_pair, ps),
             match ps with
             | [] => Ok self
             | _ :: _ =>
                 ds ← mapM (compute_path_distance self) ps;
                 m ← py_min ds;
                 Ok (set_distances self (dict_set (distances self) link_pair m))
             end)
          entries acc
      = Ok (set_distances acc (distances acc ++ new)) ∧
    new.*1 = (filter reachable entries).*1 ∧
    Forall (λ d, ∃ ps ds, (d.1, ps) ∈ entries ∧ ps ≠ [] ∧
                   mapM (compute_path_distance self) ps = Ok ds ∧ py_min ds = Ok d.2) new.
Proof.
  induction entries as [|[pair ps] entries IH]; intros acc Hlinks Hnd Hfresh Hknown.
  - exists []. rewrite app_nil_r. by destruct acc.
  - rewrite fmap_cons in Hnd. apply NoDup_cons in Hnd as [Hpair Hnd]. cbn [foldM].
    destruct ps as [|p ps].
    + cbn [mbind result_bind].
      destruct (IH acc) as (new & -> & Hkeys & Hall); [done | done | | |].
      * intros e He. apply Hfresh. by right.
      * intros e path link He. apply Hknown. by right.
      * exists new. split_and!; [done | |].
        -- rewrite filter_cons_False; [done|]. unfold reachable. simpl. by intros [].
        -- eapply Forall_impl; [exact Hall|]. intros d (ps & ds & ? & ?).
           exists ps, ds. split; [by right | done].
    + destruct (mapM_total (compute_path_distance self) (p :: ps)) as [ds Hds].
      { intros path Hpath. apply compute_path_distance_total.
        intros link. apply (Hknown (pair, p :: ps)); [left | done]. }
      assert (compute_path_distance acc = compute_path_distance self) as ->.
      { unfold compute_path_distance, link_length. by rewrite Hlinks. }
      rewrite Hds. cbn [mbind result_bind].
      destruct (py_min_total ds) as [m Hm].
      { apply mapM_Ok in Hds. intros ->. inv Hds. }
      rewrite Hm. cbn [mbind result_bind].
      rewrite dict_set_fresh by (apply (Hfresh (pair, p :: ps)); left).
      destruct (IH (set_distances acc (distances acc ++ [(pair, m)])))
        as (new & -> & Hkeys & Hall).
      * done.
      * done.
      * intros e He. cbn [set_distances distances]. unfold keys. rewrite fmap_app.
        intros [Hin|Heq%list_elem_of_singleton]%elem_of_app.
        -- by apply (Hfresh e); [right|].
        -- apply Hpair. simpl in Heq. cbn [fst]. rewrite <-Heq. by apply list_elem_of_fmap_2.
      * intros e path link He. apply Hknown. by right.
      * exists ((pair, m) :: new). split_and!.
        -- cbn [set_distances paths links distances link_indices]. by rewrite <-app_assoc.
        -- rewrite filter_cons_True by done. by rewrite !fmap_cons, Hkeys.
        -- constructor.
           ++ exists (p :: ps), ds. split_and!; [left | done | done | done].
           ++ eapply Forall_impl; [exact Hall|]. intros d (ps' & ds' & ? & ?).
              exists ps', ds'. split; [by right | done].
Qed.

Lemma bfs_paths_links_known self start_link end_link ps path link :
  consistent self = true →
  bfs_paths self (_build_graph self) start_link end_link = Ok ps →
  path ∈ ps → link ∈ path → link ∈ keys (links self).
Proof.
  intros Hc Hbfs Hpath Hlink. unfold bfs_paths, dict_item in Hbfs.
  destruct (dict_get (links self) start_link) as [data|] eqn:Hdata; [|done].
  assert (start_link ∈ keys (links self)) as Hkey by (apply dict_get_is_Some; eauto).
  destruct (bfs_while_invariant (_build_graph self) end_link
              (shape_invariant self start_link end_link)
              (shape_step self start_link end_link Hc)
              _ _ _ (shape_init self start_link end_link Hkey data) Hbfs)
    as (final & [_ Hfound] & _ & <-).
  destruct (Hfound path Hpath) as [(_ & Hknown & _) _]. by apply Hknown.
Qed.

Lemma fresh_spec self :
  fresh self = true ↔ consistent self = true ∧ paths self = [] ∧ distances self = [].
Proof.
  unfold fresh. rewrite andb_true_iff.
  destruct (paths self), (distances self); naive_solver.
Qed.

(** The two passes over a fresh analyzer: the path set has one entry per
    ordered pair of distinct links, in the order of [permutations]; the
    distance table has one entry per non-empty path set entry, in the
    same order. *)
Lemma analysis_run self :
  fresh self = true →
  ∃ entries table,
    find_all_paths self = Ok (set_paths self entries) ∧
    compute_shortest_distances (set_paths self entries)
      = Ok (set_distances (set_paths self entries) table) ∧
    entries.*1 = permutations2 (keys (links self)) ∧
    Forall (λ e, bfs_paths self (_build_graph self) e.1.1 e.1.2 = Ok e.2) entries ∧
    table.*1 = (filter reachable entries).*1 ∧
    Forall (λ d, ∃ ps ds, (d.1, ps) ∈ entries ∧ ps ≠ [] ∧
                   mapM (compute_path_distance self) ps = Ok ds ∧ py_min ds = Ok d.2) table.
Proof.
  intros (Hc & Hpaths & Hdist)%fresh_spec.
  destruct (find_all_paths_spec self Hc Hpaths) as (entries & Hfind & Hkeys & Hall).
  pose proof Hc as [Hnd _]%consistent_spec.
  destruct (compute_shortest_distances_loop self entries (set_paths self entries))
    as (table & Hfold & Htable & Hmin).
  - done.
  - rewrite Hkeys. by apply NoDup_permutations2.
  - intros e _. cbn [set_paths distances]. rewrite Hdist. apply not_elem_of_nil.
  - intros e path link He Hpath Hlink. rewrite Forall_forall in Hall.
    by eapply bfs_paths_links_known; [| apply Hall | |].
  - exists entries, table. split_and!; try done.
    unfold compute_shortest_distances. cbn [set_paths paths] in *.
    rewrite Hfold. cbn [set_paths distances]. by rewrite Hdist.
Qed.

(** C4. After the two passes over a fresh analyzer, which both return,
    every ordered pair of distinct links has a path set entry, the one the
    enumerator returns for it. If that entry is empty the distance table
    has no entry for the pair, and that is all that happens; otherwise the
    table's entry is the [min] of the distances of the entry's paths: one
    of these distances, and none of them is smaller. *)
Theorem shortest_distances_spec (self : NetworkAnalyzer) :
  fresh self = true →
  ∃ a1 a2,
    find_all_paths self = Ok a1 ∧
    compute_shortest_distances a1 = Ok a2 ∧
    ∀ source target,
      source ∈ keys (links self) → target ∈ keys (links self) → source ≠ target →
      ∃ ps,
        bfs_paths self (_build_graph self) source target = Ok ps ∧
        dict_get (paths a2) (source, target) = Some ps ∧
        match ps with
        | [] => dict_get (distances a2) (source, target) = None
        | _ :: _ =>
            ∃ ds m,
              mapM (compute_path_distance self) ps = Ok ds ∧
              py_min ds = Ok m ∧
              dict_get (distances a2) (source, target) = Some m ∧
              m ∈ ds ∧
              ∀ d, d ∈ ds → (d <? m)%float = false
        end.
Proof.
  intros Hfresh.
  destruct (analysis_run self Hfresh) as (entries & table & Hfind & Hdist & Hkeys & Hall & Htable & Hmin).
  apply fresh_spec in Hfresh as (Hc & _ & _). pose proof Hc as [Hnd _]%consistent_spec.
  assert (NoDup entries.*1) as Hnd_e by (rewrite Hkeys; by apply NoDup_permutations2).
  assert (NoDup table.*1) as Hnd_t.
  { rewrite Htable. eapply sublist_NoDup; [exact Hnd_e|].
    apply fmap_sublist, sublist_filter. }
  eexists _, _. split_and!; [exact Hfind | exact Hdist |].
  intros source target Hs Ht Hne. cbn [set_distances set_paths paths distances].
  assert ((source, target) ∈ entries.*1) as ([pair ps] & Hpair & Hin)%list_elem_of_fmap.
  { rewrite Hkeys. by apply elem_of_permutations2. }
  simpl in Hpair. subst pair. exists ps.
  rewrite Forall_forall in Hall. rewrite Forall_forall in Hmin.
  split_and!; [by apply (Hall _ Hin) | by apply dict_get_elem |].
  destruct ps as [|p ps].
  - apply dict_get_None. unfold keys. rewrite Htable.
    intros ([pair ps'] & Hpair & [Hreach Hin']%list_elem_of_filter)%list_elem_of_fmap.
    simpl in Hpair. subst pair.
    pose proof (dict_get_elem _ _ _ Hnd_e Hin) as H1.
    pose proof (dict_get_elem _ _ _ Hnd_e Hin') as H2.
    unfold reachable in Hreach. simpl in Hreach. congruence.
  - assert ((source, target) ∈ table.*1) as ([pair m] & Hpair & Hin_t)%list_elem_of_fmap.
    { rewrite Htable. apply list_elem_of_fmap. exists (source, target, p :: ps).
      split; [done|]. by apply list_elem_of_filter. }
    simpl in Hpair. subst pair.
    destruct (Hmin _ Hin_t) as (ps' & ds & Hin' & _ & Hds & Hm). simpl in Hin', Hm.
    assert (ps' = p :: ps) as ->.
    { pose proof (dict_get_elem _ _ _ Hnd_e Hin) as H1.
      pose proof (dict_get_elem _ _ _ Hnd_e Hin') as H2. congruence. }
    exists ds, m. destruct (py_min_spec ds m Hm) as [Hmem Hleast].
    split_and!; [done | done | by apply dict_get_elem | done | done].
Qed.

Lemma shortest_distances_spec_witness :
  fresh tri4_loaded = true ∧
  ∃ a1 a2,
    find_all_paths tri4_loaded = Ok a1 ∧
    compute_shortest_distances a1 = Ok a2 ∧
    ∀ source target,
      source ∈ keys (links tri4_loaded) → target ∈ keys (links tri4_loaded) →
      source ≠ target →
      ∃ ps,
        bfs_paths tri4_loaded (_build_graph tri4_loaded) source target = Ok ps ∧
        dict_get (paths a2) (source, target) = Some ps ∧
        match ps with
        | [] => dict_get (distances a2) (source, target) = None
        | _ :: _ =>
            ∃ ds m,
              mapM (compute_path_distance tri4_loaded) ps = Ok ds ∧
              py_min ds = Ok m ∧
              dict_get (distances a2) (source, target) = Some m ∧
              m ∈ ds ∧
              ∀ d, d ∈ ds → (d <? m)%float = false
        end.
Proof.
  split; [reflexivity|]. apply (shortest_distances_spec tri4_loaded). reflexivity.
Defined.

(** Two links in different components: both path set entries are empty,
    the distance table is empty, and nothing is raised. *)
Example islands_unreachable :
  ∃ a1 a2,
    find_all_paths islands_loaded = Ok a1 ∧
    compute_shortest_distances a1 = Ok a2 ∧
    paths a2 = [(("P", "Q"), []); (("Q", "P"), [])] ∧
    distances a2 = [].
Proof. eexists _, _. split_and!; reflexivity. Qed.

(** ** Data frames *)

Section FrameFacts.
Context {L : Type} `{EqDecision L}.
Implicit Types (labels : list L) (df : DataFrame L).









End FrameFacts.

(** ** Matrix assembler *)








Section Fill.
Variable labels : list string.
Hypothesis labels_NoDup : NoDup labels.


End Fill.










(** C8. With no link loaded nothing fails: the searches and the distance
    pass leave the empty path set and the empty distance table as they
    are, the paths file is empty, and the assembler returns two matrices
    without rows or columns; so does the whole run on an empty project. *)
Theorem empty_network (self : NetworkAnalyzer) :
  links self = [] → paths self = [] → distances self = [] →
  find_all_paths self = Ok self ∧
  compute_shortest_distances self = Ok self ∧
  save_paths self = [] ∧
  create_distance_matrices self = Ok (mkFrame [] [] [], mkFrame [] [] []) ∧
  links (load_network init []) = [] ∧
  analyze_network [] = Ok (init, [], (mkFrame [] [] [], mkFrame [] [] [])).
Proof.
  destruct self as [ls ps ds idx]. simpl. intros -> -> ->.
  unfold find_all_paths, compute_shortest_distances, save_paths, create_distance_matrices,
    unique_links.
  simpl. split_and!; reflexivity.
Qed.

Lemma empty_network_witness :
  links init = [] ∧ paths init = [] ∧ distances init = [] ∧
  find_all_paths init = Ok init ∧
  compute_shortest_distances init = Ok init ∧
  save_paths init = [] ∧
  create_distance_matrices init = Ok (mkFrame [] [] [], mkFrame [] [] []) ∧
  links (load_network init []) = [] ∧
  analyze_network [] = Ok (init, [], (mkFrame [] [] [], mkFrame [] [] [])).
Proof.
  split; [reflexivity|]. split; [reflexivity|]. split; [reflexivity|].
  apply (empty_network init); reflexivity.
Defined.

(** ** The run as a whole *)




(** ** Natural order *)

Lemma ascii_compare_refl c : Ascii.compare c c = Eq.
Proof. apply N.compare_refl. Qed.

Lemma string_compare_refl s : String.compare s s = Eq.
Proof. induction s as [|c s IH]; simpl; [done|]. by rewrite ascii_compare_refl. Qed.

Lemma string_compare_eq s t : String.compare s t = Eq ↔ s = t.
Proof. split; [apply String.compare_eq_iff | intros ->; apply string_compare_refl]. Qed.


Lemma token_compare_eq a b : token_compare a b = Eq ↔ a = b.
Proof.
  destruct a as [m|s], b as [n|t]; simpl; try done.
  - rewrite N.compare_eq_iff. naive_solver.
  - rewrite string_compare_eq. naive_solver.
Qed.



Lemma key_compare_eq k1 : ∀ k2, key_compare k1 k2 = Eq ↔ k1 = k2.
Proof.
  induction k1 as [|a k1 IH]; intros [|b k2]; simpl; try done.
  destruct (token_compare a b) eqn:Hab.
  - apply token_compare_eq in Hab as ->. rewrite IH. naive_solver.
  - split; [done|]. intros [= -> _].
    by rewrite (proj2 (token_compare_eq b b)) in Hab.
  - split; [done|]. intros [= -> _].
    by rewrite (proj2 (token_compare_eq b b)) in Hab.
Qed.




Lemma natural_key_classify x : natural_key x = classify <$> re_split_digits x.
Proof. reflexivity. Qed.

Lemma forallb_string_snoc p s c :
  forallb_string p (snoc s c) = forallb_string p s && p c.
Proof.
  unfold snoc. induction s as [|a s IH]; simpl.
  - by rewrite andb_true_r.
  - by rewrite IH, andb_assoc.
Qed.

Lemma snoc_nonempty s c : snoc s c ≠ "".
Proof. by destruct s. Qed.

Lemma classify_digits t :
  t ≠ "" → forallb_string is_digit t = true → classify t = TInt (int t).
Proof. intros Hne Hall. unfold classify, isdigit. destruct t; [done|]. by rewrite Hall. Qed.

Lemma classify_text t :
  forallb_string (λ c, negb (is_digit c)) t = true → classify t = TStr (lower t).
Proof.
  intros Hall. unfold classify, isdigit. destruct t as [|c t]; [done|]. simpl in *.
  apply andb_true_iff in Hall as [Hc _]. apply negb_true_iff in Hc. by rewrite Hc.
Qed.

(** The runs alternate: text, digits, text, ... *)
Lemma split_runs_aligned x : ∀ (in_digits : bool) cur,
  (if in_digits
   then cur ≠ "" ∧ forallb_string is_digit cur = true
   else forallb_string (λ c, negb (is_digit c)) cur = true) →
  aligned (negb in_digits) (classify <$> split_runs x in_digits cur).
Proof.
  induction x as [|c x IH]; intros in_digits cur Hcur; cbn [split_runs].
  - destruct in_digits; simpl.
    + destruct Hcur as [Hne Hall]. by rewrite (classify_digits cur).
    + by rewrite (classify_text cur).
  - destruct (is_digit c) eqn:Hc, in_digits.
    + apply IH. destruct Hcur as [Hne Hall]. split; [apply snoc_nonempty|].
      by rewrite forallb_string_snoc, Hall, Hc.
    + rewrite fmap_cons, (classify_text cur) by done. simpl. split; [done|].
      apply (IH true). simpl. by rewrite Hc.
    + destruct Hcur as [Hne Hall]. rewrite fmap_cons, (classify_digits cur) by done.
      simpl. split; [done|]. apply (IH false). simpl. by rewrite Hc.
    + apply IH. by rewrite forallb_string_snoc, Hcur, Hc.
Qed.

Lemma natural_key_aligned x : aligned true (natural_key x).
Proof. apply (split_runs_aligned x false ""). done. Qed.

(** On keys that alternate alike, [<] never raises and is the total
    comparison. *)
Lemma key_lt_aligned k1 : ∀ str_first k2,
  aligned str_first k1 → aligned str_first k2 →
  key_lt k1 k2 = Ok (bool_decide (key_compare k1 k2 = Lt)).
Proof.
  induction k1 as [|a k1 IH]; intros str_first [|b k2] H1 H2; simpl; try done.
  destruct a as [m|s], b as [n|t]; simpl in H1, H2;
    destruct H1 as [-> H1], H2 as [? H2]; try done.
  - case_bool_decide as Hmn; cbn [token_compare token_lt].
    + injection Hmn as ->. rewrite N.compare_refl. by eapply IH.
    + f_equal. unfold N.ltb. destruct (N.compare m n) eqn:E.
      * apply N.compare_eq_iff in E. congruence.
      * by rewrite bool_decide_eq_true_2.
      * by rewrite bool_decide_eq_false_2.
  - case_bool_decide as Hst; cbn [token_compare token_lt].
    + injection Hst as ->. rewrite string_compare_refl. by eapply IH.
    + f_equal. unfold String.ltb. destruct (String.compare s t) eqn:E.
      * apply string_compare_eq in E. congruence.
      * by rewrite bool_decide_eq_true_2.
      * by rewrite bool_decide_eq_false_2.
Qed.

Lemma natural_lt_spec x y :
  key_lt (natural_key x) (natural_key y) = Ok (natural_lt x y) ∧
  natural_lt x y = bool_decide (key_compare (natural_key x) (natural_key y) = Lt).
Proof.
  unfold natural_lt.
  by rewrite (key_lt_aligned _ true _ (natural_key_aligned x) (natural_key_aligned y)).
Qed.



Section SortedFacts.
Context {A : Type} (lt : A → A → bool).
Hypothesis lt_asym : ∀ x y, lt x y = true → lt y x = false.
Hypothesis lt_negtrans : ∀ x y z, lt z y = false → lt y x = false → lt z x = false.


End SortedFacts.




(** Loaded as L1, L10, L2, the links label the matrix as L1, L2, L10. *)
Example numbered_labels :
  keys (links numbered_analyzed) = ["L1"; "L10"; "L2"] ∧
  (index ∘ snd <$> match create_distance_matrices numbered_analyzed with
                   | Ok ms => Some ms | Raise _ => None end)
    = Some ["L1"; "L2"; "L10"].
Proof. split; reflexivity. Qed.

(** ** Paths file *)

Lemma split_comma_free t : comma_free t = true → split_comma t = [t].
Proof.
  unfold comma_free. induction t as [|c t IH]; simpl; [done|].
  intros [Hc Ht]%andb_true_iff. apply negb_true_iff in Hc. rewrite Hc, IH by done. done.
Qed.

Lemma split_comma_app s t :
  comma_free s = true → split_comma (s +:+ "," +:+ t) = s :: split_comma t.
Proof.
  unfold comma_free. induction s as [|c s IH]; simpl; [done|].
  intros [Hc Hs]%andb_true_iff. apply negb_true_iff in Hc. rewrite Hc, IH by done. done.
Qed.

Lemma split_comma_string_key key :
  comma_free key.1 = true → comma_free key.2 = true →
  split_comma (string_key key) = tuple_key key.
Proof.
  intros H1 H2. unfold string_key, tuple_key.
  by rewrite split_comma_app, split_comma_free.
Qed.

(** A comprehension whose keys are all different builds the list of its
    items. *)
Lemma dict_comprehension {K K' V} `{EqDecision K'} (f : K → K') (items : dict K V) :
  ∀ d : dict K' V,
  NoDup (f <$> keys items) →
  (∀ k, k ∈ keys items → f k ∉ keys d) →
  fold_left (λ d '(key, value), dict_set d (f key) value) items d
  = d ++ (prod_map f id <$> items).
Proof.
  unfold keys. induction items as [|[k v] items IH]; intros d Hnd Hfresh; simpl.
  - by rewrite app_nil_r.
  - rewrite !fmap_cons in Hnd. apply NoDup_cons in Hnd as [Hk Hnd]. simpl in Hk.
    rewrite dict_set_fresh by (apply Hfresh; left).
    rewrite IH; [by rewrite <-app_assoc | done |].
    intros k' Hk'. unfold keys. rewrite fmap_app.
    intros [Hin|Heq%list_elem_of_singleton]%elem_of_app.
    + by apply (Hfresh k'); [right|].
    + apply Hk. simpl in Heq. rewrite <-Heq. by apply list_elem_of_fmap_2.
Qed.

Lemma paths_ok_spec self :
  paths_ok self = true ↔
  NoDup (keys (paths self)) ∧
  ∀ key, key ∈ keys (paths self) → comma_free key.1 = true ∧ comma_free key.2 = true.
Proof.
  unfold paths_ok. rewrite andb_true_iff, bool_decide_eq_true, forallb_forall.
  split; intros [Hnd Hkeys]; (split; [done|]).
  - intros key ([key' v] & -> & Hin%list_elem_of_In%Hkeys)%list_elem_of_fmap.
    by apply andb_true_iff in Hin.
  - intros [key v] Hin%list_elem_of_In. apply andb_true_iff. apply Hkeys.
    by apply (list_elem_of_fmap_2 fst _ (key, v)).
Qed.

(** C9, for identifiers without commas. Writing a path set whose link
    identifiers contain no comma to the paths file and reading the file
    back gives the same mapping: the same pairs, as tuples, in the same
    order, each with its list of paths. *)
Theorem save_load_round_trip (self : NetworkAnalyzer) :
  paths_ok self = true →
  save_paths self = prod_map string_key id <$> paths self ∧
  load_paths (save_paths self) = as_tuples (paths self).
Proof.
  intros [Hnd Hfree]%paths_ok_spec.
  assert (∀ key, key ∈ keys (paths self) → split_comma (string_key key) = tuple_key key)
    as Hsplit.
  { intros key [H1 H2]%Hfree. by apply split_comma_string_key. }
  assert (NoDup (tuple_key <$> keys (paths self))) as Hnd_t.
  { apply NoDup_fmap_2_strong; [|done]. by intros [a b] [a' b'] _ _ [= -> ->]. }
  assert (NoDup (string_key <$> keys (paths self))) as Hnd_s.
  { apply NoDup_fmap_2_strong; [|done]. intros k k' Hk Hk' Heq.
    apply (f_equal split_comma) in Heq. rewrite !Hsplit in Heq by done.
    destruct k, k'. by injection Heq as -> ->. }
  assert (save_paths self = prod_map string_key id <$> paths self) as Hsave.
  { unfold save_paths. rewrite (dict_comprehension string_key); [done | done |].
    intros k _. apply not_elem_of_nil. }
  split; [done|]. rewrite Hsave. unfold load_paths, as_tuples.
  rewrite (dict_comprehension split_comma).
  - simpl. rewrite <-list_fmap_compose. apply list_fmap_ext.
    intros i [key v] Hin%list_elem_of_lookup_2. unfold prod_map. simpl. f_equal.
    apply Hsplit. by apply (list_elem_of_fmap_2 fst _ (key, v)).
  - unfold keys. rewrite <-!list_fmap_compose.
    rewrite (list_fmap_ext _ (tuple_key ∘ fst)).
    + by rewrite list_fmap_compose.
    + intros i [key v] Hin%list_elem_of_lookup_2. simpl. apply Hsplit.
      by apply (list_elem_of_fmap_2 fst _ (key, v)).
  - intros k _. apply not_elem_of_nil.
Qed.

Lemma save_load_round_trip_witness :
  paths_ok tri4_searched = true ∧
  save_paths tri4_searched = prod_map string_key id <$> paths tri4_searched ∧
  load_paths (save_paths tri4_searched) = as_tuples (paths tri4_searched).
Proof.
  split; [reflexivity|]. apply (save_load_round_trip tri4_searched). reflexivity.
Defined.

(** A link called [P,1]: the key written for the pair [(P,1, P2)] is
    [P,1,P2], which is read back as a tuple of three components. *)
Lemma save_load_comma :
  paths comma_searched
    = [(("P,1", "P2"), [["P,1"; "P2"]]); (("P2", "P,1"), [["P2"; "P,1"]])] ∧
  load_paths (save_paths comma_searched)
    = [(["P"; "1"; "P2"], [["P,1"; "P2"]]); (["P2"; "P"; "1"], [["P2"; "P,1"]])] ∧
  load_paths (save_paths comma_searched) ≠ as_tuples (paths comma_searched).
Proof. split_and!; [reflexivity | reflexivity | by vm_compute]. Qed.

(** * Further properties *)

(** ** Loading *)

Lemma load_links_link_indices rows : ∀ self i,
  (∀ k, k ∈ keys (link_indices self) → (k < i)%Z) →
  link_indices (load_links self i rows)
  = link_indices self ++ imap (λ k row, ((i + Z.of_nat k)%Z, NetworkLink.id row)) rows.
Proof.
  induction rows as [|row rows IH]; intros self i Hlt; cbn [load_links imap].
  { by rewrite app_nil_r. }
  rewrite IH; cbn [link_indices set_links set_link_indices].
  - rewrite dict_set_fresh by (intros Hin%Hlt; lia).
    rewrite <-app_assoc. cbn [app]. do 2 f_equal.
    + f_equal. lia.
    + apply imap_ext. intros k x _. cbn. f_equal. lia.
  - intros k. rewrite keys_dict_set. case_decide.
    + intros Hin%Hlt. lia.
    + intros [Hin%Hlt| ->%list_elem_of_singleton]%elem_of_app; lia.
Qed.

Lemma load_links_get rows : ∀ self i link_id,
  dict_get (links (load_links self i rows)) link_id
  = match last (filter (λ row, NetworkLink.id row = link_id) rows) with
    | Some row => Some row
    | None => dict_get (links self) link_id
    end.
Proof.
  induction rows as [|row rows IH]; intros self i link_id; cbn [load_links]; [done|].
  rewrite IH. cbn [links set_links set_link_indices].
  rewrite filter_cons, dict_get_set.
  destruct (filter _ rows) as [|r rs] eqn:E.
  - destruct (decide (link_id = _)), (decide (_ = link_id)); cbn [last]; congruence.
  - destruct (decide (_ = link_id)); rewrite ?last_cons_cons;
      (destruct (last (r :: rs)) eqn:El; [done|by apply last_None in El]).
Qed.

Lemma load_links_distinct rows : ∀ self i,
  NoDup (keys (links self) ++ (NetworkLink.id <$> rows)) →
  links (load_links self i rows)
  = links self ++ ((λ row, (NetworkLink.id row, row)) <$> rows).
Proof.
  induction rows as [|row rows IH]; intros self i Hnd; cbn [load_links fmap list_fmap].
  { by rewrite app_nil_r. }
  rewrite fmap_cons in Hnd.
  apply NoDup_app in Hnd as (Hk & Hdisj & Hrows).
  rewrite IH; cbn [links set_links set_link_indices].
  - rewrite dict_set_fresh by (intros Hin; apply (Hdisj _ Hin); left).
    by rewrite <-app_assoc.
  - rewrite dict_set_fresh by (intros Hin; apply (Hdisj _ Hin); left).
    unfold keys. rewrite fmap_app. cbn. rewrite <-app_assoc. cbn.
    apply NoDup_app. split_and!; [done| |done].
    intros x Hx. apply Hdisj, Hx.
Qed.

(** X1. [load_network] records under the EPANET link indices 1, 2, ..., n
    the identifiers of the links in the order of the project. *)
Theorem load_network_link_indices (project : list NetworkLink.t) :
  link_indices (load_network init project)
  = imap (λ k row, (Z.of_nat (k + 1), NetworkLink.id row)) project.
Proof.
  unfold load_network. rewrite load_links_link_indices by (cbn; intros k Hk; inversion Hk).
  cbn [link_indices init app]. apply imap_ext. intros k row _. cbn. f_equal. lia.
Qed.

(** X2. A link replaces an earlier link of the same identifier: after
    [load_network], an identifier is bound to the last link of the project
    that carries it (and to none when there is no such link), and the number of
    stored links never exceeds the number of links of the project. *)
Theorem load_network_last_wins (project : list NetworkLink.t) (link_id : string) :
  dict_get (links (load_network init project)) link_id
    = last (filter (λ row, NetworkLink.id row = link_id) project) ∧
  (length (links (load_network init project)) ≤ length project)%nat.
Proof.
  split.
  - unfold load_network. rewrite load_links_get. cbn. by destruct (last _).
  - unfold load_network.
    assert (∀ rows self i, length (links (load_links self i rows))
              ≤ length (links self) + length rows)%nat as H.
    { induction rows as [|row rows IH]; intros self i; cbn [load_links length]; [lia|].
      etrans; [apply IH|]. cbn [links set_links set_link_indices].
      assert (∀ (d : dict string NetworkLink.t) k v,
                length (dict_set d k v) ≤ S (length d))%nat as Hd.
      { induction d as [|[k' v'] d IHd]; intros k v; cbn; [lia|].
        case_decide; cbn; [lia|]. specialize (IHd k v). lia. }
      specialize (Hd (links self) (NetworkLink.id row) row). lia. }
    apply (H project init 1%Z).
Qed.

(** X3. When the identifiers of the project are pairwise distinct,
    [self.links] holds every link under its identifier, in the order of the
    project. *)
Theorem load_network_distinct (project : list NetworkLink.t) :
  NoDup (NetworkLink.id <$> project) →
  links (load_network init project) = (λ row, (NetworkLink.id row, row)) <$> project ∧
  keys (links (load_network init project)) = NetworkLink.id <$> project ∧
  values (links (load_network init project)) = project.
Proof.
  intros Hnd. unfold load_network.
  rewrite load_links_distinct by done. cbn [links init app].
  split_and!; [done| |]; unfold keys, values; rewrite <-list_fmap_compose.
  - done.
  - by rewrite <-(list_fmap_id project) at 2.
Qed.

(** ** Graph builder *)

Lemma graph_append_lookup graph m e n :
  default [] (graph_append graph m e !! n)
  = default [] (graph !! n) ++ (if decide (m = n) then [e] else []).
Proof.
  unfold graph_append. case_decide as Hmn.
  - subst. by rewrite lookup_insert_eq.
  - rewrite lookup_insert_ne by done. by rewrite app_nil_r.
Qed.

Lemma graph_append_None graph m e n :
  graph_append graph m e !! n = None ↔ graph !! n = None ∧ m ≠ n.
Proof.
  unfold graph_append. destruct (decide (m = n)) as [->|Hmn].
  - rewrite lookup_insert_eq. naive_solver.
  - rewrite lookup_insert_ne by done. naive_solver.
Qed.

Lemma fold_add_link_lookup ls : ∀ graph n,
  default [] (fold_left add_link ls graph !! n)
  = default [] (graph !! n) ++ (ls ≫= incident n).
Proof.
  induction ls as [|l ls IH]; intros graph n; cbn [fold_left].
  { by rewrite app_nil_r. }
  rewrite IH. unfold add_link. rewrite !graph_append_lookup.
  rewrite bind_cons. unfold incident. by rewrite <-!app_assoc.
Qed.

Lemma fold_add_link_None ls : ∀ graph n,
  fold_left add_link ls graph !! n = None ↔
  graph !! n = None ∧
  ∀ l, l ∈ ls → NetworkLink.start_node l ≠ n ∧ NetworkLink.end_node l ≠ n.
Proof.
  induction ls as [|l ls IH]; intros graph n; cbn [fold_left].
  { split; [|naive_solver]. intros ?; split; [done|]. intros l Hl. inversion Hl. }
  rewrite IH. unfold add_link. rewrite !graph_append_None.
  split.
  - intros [((? & ?) & ?) Hls]. split; [done|].
    intros l' [->|?]%elem_of_cons; [done|by apply Hls].
  - intros [? Hls]. split_and!; [done|apply Hls; left..|].
    intros l' ?. apply Hls. by right.
Qed.

(** X4. The adjacency list the graph builder leaves under a node is, in
    the order of [self.links], what every link contributes to the node: the
    pair (end node, identifier) if the link starts there followed by the pair
    (start node, identifier) if it ends there; so a link from a node to
    itself is listed twice.  A node has no key exactly when no link starts
    or ends there. *)
Theorem build_graph_adjacency (self : NetworkAnalyzer) (n : string) :
  default [] (_build_graph self !! n) = values (links self) ≫= incident n ∧
  (_build_graph self !! n = None ↔
   ∀ link, link ∈ values (links self) →
     NetworkLink.start_node link ≠ n ∧ NetworkLink.end_node link ≠ n).
Proof.
  unfold _build_graph. split.
  - by rewrite fold_add_link_lookup, lookup_empty.
  - rewrite fold_add_link_None, lookup_empty. split; [by intros [_ ?]|by split].
Qed.

(** X5. The graph is bidirectional: a link is listed from [n] to
    [neighbor] exactly when it is listed from [neighbor] to [n], and the
    listed links are those of the network that join the two nodes. *)
Theorem build_graph_bidirectional (self : NetworkAnalyzer) (n neighbor link : string) :
  (adjacent (_build_graph self) n neighbor link ↔
   adjacent (_build_graph self) neighbor n link) ∧
  (adjacent (_build_graph self) n neighbor link ↔
   ∃ l, l ∈ values (links self) ∧ NetworkLink.id l = link ∧
     ((NetworkLink.start_node l = n ∧ NetworkLink.end_node l = neighbor) ∨
      (NetworkLink.end_node l = n ∧ NetworkLink.start_node l = neighbor))).
Proof.
  rewrite !adjacent_build_graph. unfold realizes. split; naive_solver.
Qed.

Lemma load_network_distinct_witness :
  NoDup (NetworkLink.id <$> tri4) ∧
  links (load_network init tri4) = (λ row, (NetworkLink.id row, row)) <$> tri4 ∧
  keys (links (load_network init tri4)) = NetworkLink.id <$> tri4 ∧
  values (links (load_network init tri4)) = tri4.
Proof.
  assert (NoDup (NetworkLink.id <$> tri4)) as Hnd.
  { apply (bool_decide_unpack _). vm_compute. reflexivity. }
  split; [exact Hnd|]. apply (load_network_distinct tri4 Hnd).
Defined.

(** ** Path enumerator: walks *)

Lemma walk_init self data start_link :
  walk_invariant self data start_link (bfs_init data start_link).
Proof.
  split; cbn.
  - intros n path [Heq|[Heq|Hin]%elem_of_cons]%elem_of_cons.
    + injection Heq as -> ->. constructor.
    + injection Heq as -> ->. constructor.
    + inversion Hin.
  - intros path Hin. inversion Hin.
Qed.

Lemma walk_step self data start_link end_link st st' :
  walk_invariant self data start_link st →
  bfs_step (_build_graph self) end_link st = Some st' →
  walk_invariant self data start_link st'.
Proof.
  intros [Hq Hf] Hstep%bfs_step_spec.
  destruct Hstep as [current_node path rest Hqueue Hlast ->
                    |current_node path rest new Hqueue Hlast -> Hnew _ _]; split; cbn.
  - intros n p Hin. apply Hq. rewrite Hqueue. by right.
  - intros p [Hin| ->%list_elem_of_singleton]%elem_of_app; [by apply Hf|].
    exists current_node. apply Hq. rewrite Hqueue. left.
  - intros n p [Hin|Hin]%elem_of_app.
    + apply Hq. rewrite Hqueue. by right.
    + rewrite Forall_forall in Hnew.
      destruct (Hnew _ Hin) as (neighbor & link & Heq & Hadj & _).
      injection Heq as -> ->.
      apply adjacent_build_graph in Hadj as (l & Hl & Hreal).
      eapply walk_extend; [|exact Hl|exact Hreal].
      apply Hq. rewrite Hqueue. left.
  - exact Hf.
Qed.

Lemma bfs_iter_found_length graph end_link n : ∀ st st',
  bfs_iter n graph end_link st = Some st' →
  (length (found st') ≤ length (found st) + n)%nat.
Proof.
  induction n as [|n IH]; intros st st'; cbn [bfs_iter].
  { intros [= ->]. lia. }
  destruct (bfs_step graph end_link st) as [st1|] eqn:Hstep; [|done].
  cbn. intros Hiter%IH.
  apply bfs_step_spec in Hstep as [? ? ? _ _ ->|? ? ? ? _ _ -> _ _ _];
    cbn in Hiter; rewrite ?length_app in Hiter; cbn in Hiter; lia.
Qed.

(** X6. Every path the enumerator returns is a walk through the network:
    it leaves the source link by one of its two nodes and every further link
    of the path is a link of the network that is entered at the node reached
    so far and left at its other end. *)
Theorem bfs_paths_walk (self : NetworkAnalyzer) (start_link end_link : string)
    (start_link_data : NetworkLink.t) :
  dict_get (links self) start_link = Some start_link_data →
  ∃ ps, bfs_paths self (_build_graph self) start_link end_link = Ok ps ∧
    ∀ path, path ∈ ps → ∃ node, walk self start_link_data start_link node path.
Proof.
  intros Hget.
  destruct (bfs_run self start_link_data start_link end_link)
    as (n & final & _ & _ & _ & _ & _ & _ & Hwhile).
  exists (found final). unfold bfs_paths, dict_item. rewrite Hget. cbn.
  split; [exact Hwhile|].
  destruct (bfs_while_invariant (_build_graph self) end_link
              (walk_invariant self start_link_data start_link)
              (walk_step self start_link_data start_link end_link)
              _ _ _ (walk_init self start_link_data start_link) Hwhile)
    as (final' & [_ Hf] & _ & Heq).
  rewrite <-Heq. exact Hf.
Qed.

Lemma bfs_paths_walk_witness :
  dict_get (links tri4_loaded) "C" = Some (NetworkLink.mk "C" "n0" "n3" 1) ∧
  ∃ ps, bfs_paths tri4_loaded (_build_graph tri4_loaded) "C" "D" = Ok ps ∧
    ∀ path, path ∈ ps →
      ∃ node, walk tri4_loaded (NetworkLink.mk "C" "n0" "n3" 1) "C" node path.
Proof.
  split; [reflexivity|].
  apply (bfs_paths_walk tri4_loaded "C" "D"). reflexivity.
Defined.

(** X7. A query is bounded by the size of the network: it returns at most
    two paths more than twice the number of links, and each of its paths has
    at least one and at most as many links as the network. *)
Theorem bfs_paths_bounded (self : NetworkAnalyzer) (start_link end_link : string) :
  consistent self = true →
  start_link ∈ keys (links self) →
  ∃ ps, bfs_paths self (_build_graph self) start_link end_link = Ok ps ∧
    (length ps ≤ 2 + 2 * length (links self))%nat ∧
    ∀ path, path ∈ ps → (1 ≤ length path ≤ length (links self))%nat.
Proof.
  intros Hcons Hstart.
  destruct (proj2 (dict_get_is_Some (links self) start_link) Hstart) as [data Hget].
  destruct (bfs_run self data start_link end_link)
    as (n & final & Hiter & _ & Hn & _ & _ & Happ & Hwhile).
  exists (found final). unfold bfs_paths, dict_item. rewrite Hget. cbn.
  split_and!; [exact Hwhile| |].
  - apply bfs_iter_found_length in Hiter. cbn in Hiter. lia.
  - destruct (bfs_while_invariant (_build_graph self) end_link
                (shape_invariant self start_link end_link)
                (shape_step self start_link end_link Hcons)
                _ _ _ (shape_init self start_link end_link Hstart data) Hwhile)
      as (final' & [_ Hf] & _ & Heq).
    intros path Hin. rewrite <-Heq in Hin.
    destruct (Hf path Hin) as [(Hhead & Hknown & Hnd) _]. split.
    + destruct path; [done|cbn; lia].
    + replace (length (links self)) with (length (keys (links self)))
        by (unfold keys; by rewrite length_fmap).
      apply submseteq_length, NoDup_submseteq; [done|].
      intros link. apply Hknown.
Qed.

Lemma bfs_paths_bounded_witness :
  consistent tri4_loaded = true ∧ "C" ∈ keys (links tri4_loaded) ∧
  ∃ ps, bfs_paths tri4_loaded (_build_graph tri4_loaded) "C" "D" = Ok ps ∧
    (length ps ≤ 2 + 2 * length (links tri4_loaded))%nat ∧
    ∀ path, path ∈ ps → (1 ≤ length path ≤ length (links tri4_loaded))%nat.
Proof.
  split; [reflexivity|]. split; [vm_compute; set_solver|].
  apply (bfs_paths_bounded tri4_loaded "C" "D"); [reflexivity|vm_compute; set_solver].
Defined.

(** ** Path enumerator: connected links *)

Lemma visit_fold_marks current_node path adj : ∀ q v,
  let r := fold_left (visit current_node path) adj (q, v) in
  v ⊆ r.2 ∧
  ∀ neighbor link, (neighbor, link) ∈ adj → link ∈ path ∨ (current_node, neighbor) ∈ r.2.
Proof.
  induction adj as [|[n l] adj IH]; intros q v; cbn [fold_left].
  { split; [done|]. intros ? ? Hin. inversion Hin. }
  destruct (IH (visit current_node path (q, v) (n, l)).1
               (visit current_node path (q, v) (n, l)).2) as [Hsub Hall].
  rewrite <-surjective_pairing in Hsub, Hall.
  assert (v ⊆ (visit current_node path (q, v) (n, l)).2 ∧
          (l ∈ path ∨ (current_node, n) ∈ (visit current_node path (q, v) (n, l)).2))
    as [Hv Hn].
  { unfold visit. cbn [fst snd].
    destruct (decide (l ∈ path)) as [?|Hl]; [|destruct (decide ((current_node, n) ∈ v))].
    - rewrite (bool_decide_eq_false_2 (l ∉ path)) by tauto. cbn. by split; [|left].
    - rewrite (bool_decide_eq_true_2 (l ∉ path)) by done.
      rewrite (bool_decide_eq_false_2 (_ ∉ v)) by tauto. cbn. by split; [|right].
    - rewrite (bool_decide_eq_true_2 (l ∉ path)) by done.
      rewrite (bool_decide_eq_true_2 (_ ∉ v)) by done. cbn. split; [set_solver|].
      right. set_solver. }
  split; [set_solver|].
  intros neighbor link [Heq|Hin]%elem_of_cons; [|by apply Hall].
  injection Heq as -> ->. destruct Hn as [?|?]; [by left|right]. by apply Hsub.
Qed.

Lemma bfs_step_marks graph end_link st st' current_node path rest :
  bfs_step graph end_link st = Some st' →
  queue st = (current_node, path) :: rest →
  last path ≠ Some end_link →
  ∀ neighbor link, adjacent graph current_node neighbor link →
    link ∈ path ∨ (current_node, neighbor) ∈ visited st'.
Proof.
  unfold bfs_step. intros Hstep Hqueue Hlast. rewrite Hqueue in Hstep.
  rewrite bool_decide_eq_false_2 in Hstep by done.
  injection Hstep as <-. cbn [visited].
  intros neighbor link Hadj.
  by apply (visit_fold_marks current_node path (default [] (graph !! current_node))
              rest (visited st)).
Qed.

Lemma adjacent_end_of self link l a b :
  consistent self = true →
  dict_get (links self) link = Some l →
  adjacent (_build_graph self) a b link →
  (a = NetworkLink.start_node l ∧ b = NetworkLink.end_node l) ∨
  (a = NetworkLink.end_node l ∧ b = NetworkLink.start_node l).
Proof.
  intros Hcons Hget (l' & Hl' & Hid & Hends)%adjacent_build_graph.
  apply consistent_spec in Hcons as [Hnd Hids].
  apply list_elem_of_fmap in Hl' as ([k d] & -> & Hin). cbn in Hid, Hends.
  pose proof (Hids _ _ Hin) as Hk. subst k.
  rewrite <-Hid in Hin. rewrite (dict_get_elem _ _ _ Hnd Hin) in Hget.
  by injection Hget as ->.
Qed.

Lemma adjacent_of_link self link l :
  dict_get (links self) link = Some l → NetworkLink.id l = link →
  adjacent (_build_graph self) (NetworkLink.start_node l) (NetworkLink.end_node l) link ∧
  adjacent (_build_graph self) (NetworkLink.end_node l) (NetworkLink.start_node l) link.
Proof.
  intros Hget%dict_get_Some_elem Hid.
  assert (l ∈ values (links self)) as Hl.
  { apply list_elem_of_fmap. by exists (link, l). }
  split; apply adjacent_build_graph; exists l; (split; [done|]); unfold realizes; naive_solver.
Qed.

Lemma no_parallel_spec self x y l l' :
  no_parallel self = true →
  adjacent (_build_graph self) x y l → adjacent (_build_graph self) x y l' → l = l'.
Proof.
  intros Hnp (d & Hd & -> & Hends)%adjacent_build_graph
             (d' & Hd' & -> & Hends')%adjacent_build_graph.
  unfold no_parallel in Hnp. rewrite forallb_forall in Hnp.
  apply list_elem_of_In in Hd, Hd'.
  specialize (Hnp d Hd). rewrite forallb_forall in Hnp.
  specialize (Hnp d' Hd'). apply bool_decide_eq_true in Hnp. apply Hnp.
  unfold parallel. naive_solver.
Qed.

Lemma covered_step D st st' current_node path rest new x :
  queue st = (current_node, path) :: rest →
  queue st' = rest ++ new →
  covered D st x → covered (D ∪ {[current_node]}) st' x.
Proof.
  intros Hq Hq' [?|[p Hp]]; [left; set_solver|].
  rewrite Hq in Hp. apply elem_of_cons in Hp as [Heq|Hp].
  - injection Heq as -> ->. left. set_solver.
  - right. exists p. rewrite Hq'. apply elem_of_app. by left.
Qed.

Lemma frontier_init self start_link_data start_link end_link :
  consistent self = true →
  dict_get (links self) start_link = Some start_link_data →
  start_link ≠ end_link →
  frontier_invariant self start_link_data end_link ∅ (bfs_init start_link_data start_link).
Proof.
  intros Hcons Hget Hne.
  assert (covered ∅ (bfs_init start_link_data start_link)
            (NetworkLink.start_node start_link_data)) as Hs.
  { right. exists [start_link]. cbn. left. }
  assert (covered ∅ (bfs_init start_link_data start_link)
            (NetworkLink.end_node start_link_data)) as He.
  { right. exists [start_link]. cbn. right. left. }
  unfold frontier_invariant. cbn zeta. split_and!.
  - exact Hs.
  - exact He.
  - intros x y l Hin. by apply not_elem_of_empty in Hin.
  - intros x y Hin. cbn in Hin. by apply not_elem_of_empty in Hin.
  - intros x y Hin. by apply not_elem_of_empty in Hin.
  - intros x y Hin. cbn in Hin. by apply not_elem_of_empty in Hin.
  - intros x path l a b Hin Hl Hadj. cbn in Hin.
    assert (path = [start_link]) as ->.
    { apply elem_of_cons in Hin as [[= _ ->]|Hin]; [done|].
      apply elem_of_cons in Hin as [[= _ ->]|Hin]; [done|]. inversion Hin. }
    apply list_elem_of_singleton in Hl as ->.
    destruct (adjacent_end_of self start_link start_link_data a b Hcons Hget Hadj)
      as [[-> ->]|[-> ->]]; done.
  - intros x path Hin Ht. cbn in Hin.
    assert (path = [start_link]) as ->.
    { apply elem_of_cons in Hin as [[= _ ->]|Hin]; [done|].
      apply elem_of_cons in Hin as [[= _ ->]|Hin]; [done|]. inversion Hin. }
    apply list_elem_of_singleton in Ht. congruence.
Qed.

Lemma frontier_step self start_link_data end_link D st st' :
  consistent self = true →
  frontier_invariant self start_link_data end_link D st →
  bfs_step (_build_graph self) end_link st = Some st' →
  found st' ≠ [] ∨ ∃ D', frontier_invariant self start_link_data end_link D' st'.
Proof.
  intros Hcons (Hs & He & Hclosed & Hvis & Htarget & Hmark & Hpath & Hlast) Hstep.
  pose proof (bfs_step_spec _ _ _ _ Hstep) as Hspec.
  destruct Hspec as [current_node path rest Hqueue Hend ->
                    |current_node path rest new Hqueue Hend Hst' Hnew _ _].
  { left. cbn. by destruct (found st). }
  right. exists (D ∪ {[current_node]}). unfold frontier_invariant. cbn zeta.
  pose proof (bfs_step_marks _ _ _ _ _ _ _ Hstep Hqueue Hend) as Hmarks.
  assert (queue st' = rest ++ new) as Hq' by (by rewrite Hst').
  assert (visited st' = visited st ∪ list_to_set (pair current_node <$> new.*1)) as Hv'
    by (by rewrite Hst').
  assert (∀ x, covered D st x → covered (D ∪ {[current_node]}) st' x) as Hmono.
  { intros x. by apply (covered_step D st st' current_node path rest new). }
  assert (end_link ∉ path) as Hnot.
  { intros Hin. apply Hend. apply (Hlast current_node path); [|done]. rewrite Hqueue. left. }
  rewrite Forall_forall in Hnew.
  assert (∀ x y, (x, y) ∈ visited st' →
            (x, y) ∈ visited st ∨
            x = current_node ∧ ∃ link, (y, path ++ [link]) ∈ new ∧
              adjacent (_build_graph self) current_node y link) as Hnewmark.
  { intros x y. rewrite Hv'. intros [?|Hin]%elem_of_union; [by left|right].
    apply elem_of_list_to_set, list_elem_of_fmap in Hin as (n & [= -> ->] & Hn).
    split; [done|]. apply list_elem_of_fmap in Hn as ([n' p'] & -> & Hin).
    destruct (Hnew _ Hin) as (neighbor & link & [= -> ->] & Hadj & _).
    by exists link. }
  assert (∀ x y, (x, y) ∈ visited st' → covered (D ∪ {[current_node]}) st' y) as Hvis'.
  { intros x y [?|(-> & link & Hin & _)]%Hnewmark; [by eapply Hmono, Hvis|].
    right. exists (path ++ [link]). rewrite Hq'. apply elem_of_app. by right. }
  split_and!.
  - by apply Hmono.
  - by apply Hmono.
  - intros x y l [Hx| ->%elem_of_singleton]%elem_of_union Hadj.
    + by eapply Hmono, Hclosed.
    + destruct (Hmarks y l Hadj) as [Hl|Hm]; [|by eapply Hvis'].
      apply Hmono. eapply (Hpath current_node path l current_node y); [|done..].
      rewrite Hqueue. left.
  - exact Hvis'.
  - intros x y [Hx| ->%elem_of_singleton]%elem_of_union Hadj.
    + rewrite Hv'. apply elem_of_union. left. by apply Htarget.
    + destruct (Hmarks y end_link Hadj) as [?|?]; done.
  - intros x y [Hold|(-> & link & Hin & Hadj)]%Hnewmark.
    + destruct (Hmark x y Hold) as (l & Hadj & Hl). exists l. split; [done|].
      intros Heq. destruct (Hl Heq) as (p & Hp & Hlp). exists p. split; [|done].
      rewrite Hqueue in Hp. apply elem_of_cons in Hp as [[= -> ->]|Hp]; [done|].
      rewrite Hq'. apply elem_of_app. by left.
    + exists link. split; [done|]. intros ->. exists (path ++ [end_link]).
      split; [|by rewrite last_snoc]. rewrite Hq'. apply elem_of_app. by right.
  - intros x p l a b. rewrite Hq'. intros [Hin|Hin]%elem_of_app Hl Hadj.
    + destruct (Hpath x p l a b) as [? ?]; [rewrite Hqueue; by right|done..|].
      split; by apply Hmono.
    + destruct (Hnew _ Hin) as (neighbor & link & [= -> ->] & Hadj' & _).
      apply elem_of_app in Hl as [Hl| ->%list_elem_of_singleton].
      * destruct (Hpath current_node path l a b) as [? ?]; [rewrite Hqueue; left|done..|].
        split; by apply Hmono.
      * assert (covered (D ∪ {[current_node]}) st' current_node) as Hc
          by (left; set_solver).
        assert (covered (D ∪ {[current_node]}) st' neighbor) as Hn.
        { right. exists (path ++ [link]). rewrite Hq'. apply elem_of_app. by right. }
        apply adjacent_build_graph in Hadj' as (d & Hd & Hid & Hends).
        assert (dict_get (links self) link = Some d) as Hget.
        { pose proof (proj1 (consistent_spec self) Hcons) as [Hnd Hids].
          apply list_elem_of_fmap in Hd as ([k d'] & -> & Hin'). cbn in Hid, Hends.
          rewrite (Hids _ _ Hin') in Hid. subst k. by apply dict_get_elem. }
        destruct (adjacent_end_of self link d a b Hcons Hget Hadj) as [[-> ->]|[-> ->]];
          destruct Hends as [[-> ->]|[-> ->]]; done.
  - intros x p. rewrite Hq'. intros [Hin|Hin]%elem_of_app Ht.
    + apply (Hlast x p); [rewrite Hqueue; by right|done].
    + destruct (Hnew _ Hin) as (neighbor & link & [= -> ->] & _ & _).
      apply elem_of_app in Ht as [?| ->%list_elem_of_singleton]; [done|].
      by rewrite last_snoc.
Qed.

Lemma frontier_closed self start_link_data end_link D st a b :
  frontier_invariant self start_link_data end_link D st →
  queue st = [] →
  a ∈ D → rtc (linked self) a b → b ∈ D.
Proof.
  intros (_ & _ & Hclosed & _) Hq Ha Hrtc.
  induction Hrtc as [|x y z [l Hadj] _ IH]; [done|].
  apply IH. destruct (Hclosed x y l Ha Hadj) as [?|[p Hp]]; [done|].
  rewrite Hq in Hp. inversion Hp.
Qed.

Lemma frontier_exhausted (self : NetworkAnalyzer) (start_link_data end_link_data : NetworkLink.t)
    (end_link : string) (D : gset string) (final : bfs_state) (a b : string) :
  consistent self = true →
  no_parallel self = true →
  dict_get (links self) end_link = Some end_link_data →
  frontier_invariant self start_link_data end_link D final →
  queue final = [] →
  end_of start_link_data a → end_of end_link_data b →
  rtc (linked self) a b →
  False.
Proof.
  intros Hcons Hnp Ht HD Hq Ha Hb Hrtc.
  pose proof HD as (Hcs & Hce & _ & _ & Htarget & Hmark & _).
  assert (a ∈ D) as HaD.
  { destruct Ha as [->| ->]; [destruct Hcs as [?|[p Hp]]|destruct Hce as [?|[p Hp]]];
      try done; rewrite Hq in Hp; inversion Hp. }
  pose proof (frontier_closed _ _ _ _ _ _ _ HD Hq HaD Hrtc) as HbD.
  pose proof (proj1 (consistent_spec self) Hcons) as [_ Hids].
  pose proof (Hids _ _ (dict_get_Some_elem _ _ _ Ht)) as Hid.
  destruct (adjacent_of_link self end_link end_link_data Ht Hid) as [Hfwd Hbwd].
  assert (∃ c, adjacent (_build_graph self) b c end_link) as [c Hadj].
  { destruct Hb as [->| ->]; eauto. }
  pose proof (Htarget b c HbD Hadj) as Hvisited.
  destruct (Hmark b c Hvisited) as (l & Hadj' & Hl).
  pose proof (no_parallel_spec self b c l end_link Hnp Hadj' Hadj) as ->.
  destruct (Hl eq_refl) as (p & Hp & _). rewrite Hq in Hp. inversion Hp.
Qed.

Lemma bfs_while_nonempty (self : NetworkAnalyzer) (start_link end_link : string)
    (start_link_data end_link_data : NetworkLink.t) (a b : string) (fuel : nat)
    (ps : list Path) :
  consistent self = true →
  no_parallel self = true →
  dict_get (links self) start_link = Some start_link_data →
  dict_get (links self) end_link = Some end_link_data →
  start_link ≠ end_link →
  end_of start_link_data a → end_of end_link_data b →
  rtc (linked self) a b →
  bfs_while fuel (_build_graph self) end_link (bfs_init start_link_data start_link) = Ok ps →
  ps ≠ [].
Proof.
  intros Hcons Hnp Hs Ht Hne Ha Hb Hrtc Hwhile.
  destruct (bfs_while_invariant (_build_graph self) end_link
              (λ st, found st ≠ [] ∨
                     ∃ D, frontier_invariant self start_link_data end_link D st))
    with (fuel := fuel) (st := bfs_init start_link_data start_link)
         (ps := ps) as (final' & Hinv & Hq & Hfound).
  { intros st st' [Hf|[D HD]] Hstep.
    - left. destruct (found st) as [|p ps'] eqn:E; [done|].
      assert (p ∈ found st') as Hin
        by (apply (bfs_step_found _ _ _ _ _ Hstep); rewrite E; left).
      intros Hnil. rewrite Hnil in Hin. inversion Hin.
    - by apply (frontier_step self start_link_data end_link D st st'). }
  { right. exists ∅. by apply frontier_init. }
  { exact Hwhile. }
  rewrite <-Hfound. destruct Hinv as [?|[D HD]]; [done|exfalso].
  by apply (frontier_exhausted self start_link_data end_link_data end_link D final' a b).
Qed.

(** X8. In a network where no two links join the same two nodes, the
    enumerator finds a path for every ordered pair of distinct links that
    are connected, that is, such that some node of the target can be reached
    from some node of the source by going from node to node along links. *)
Theorem bfs_paths_connected (self : NetworkAnalyzer) (start_link end_link : string)
    (start_link_data end_link_data : NetworkLink.t) (a b : string) :
  consistent self = true →
  no_parallel self = true →
  dict_get (links self) start_link = Some start_link_data →
  dict_get (links self) end_link = Some end_link_data →
  start_link ≠ end_link →
  end_of start_link_data a → end_of end_link_data b →
  rtc (linked self) a b →
  ∃ ps, bfs_paths self (_build_graph self) start_link end_link = Ok ps ∧ ps ≠ [].
Proof.
  intros Hcons Hnp Hs Ht Hne Ha Hb Hrtc.
  destruct (bfs_run self start_link_data start_link end_link)
    as (n & final & _ & _ & _ & _ & _ & _ & Hwhile).
  exists (found final). unfold bfs_paths, dict_item. rewrite Hs.
  cbn [of_option mbind result_bind]. split; [exact Hwhile|].
  by apply (bfs_while_nonempty self start_link end_link start_link_data end_link_data
              a b (bfs_fuel self)).
Qed.

Lemma bfs_paths_connected_witness :
  consistent tri4_loaded = true ∧
  no_parallel tri4_loaded = true ∧
  dict_get (links tri4_loaded) "C" = Some (NetworkLink.mk "C" "n0" "n3" 1) ∧
  dict_get (links tri4_loaded) "D" = Some (NetworkLink.mk "D" "n1" "n2" 1) ∧
  "C" ≠ "D" ∧
  end_of (NetworkLink.mk "C" "n0" "n3" 1) "n0" ∧
  end_of (NetworkLink.mk "D" "n1" "n2" 1) "n1" ∧
  rtc (linked tri4_loaded) "n0" "n1" ∧
  ∃ ps, bfs_paths tri4_loaded (_build_graph tri4_loaded) "C" "D" = Ok ps ∧ ps ≠ [].
Proof.
  assert (rtc (linked tri4_loaded) "n0" "n1") as Hrtc.
  { apply rtc_once. exists "A". apply adjacent_build_graph.
    exists (NetworkLink.mk "A" "n0" "n1" 2). split; [left|].
    split; [reflexivity|]. left. split; reflexivity. }
  do 4 (split; [reflexivity|]). split; [discriminate|].
  split; [by left|]. split; [by left|]. split; [exact Hrtc|].
  apply (bfs_paths_connected tri4_loaded "C" "D"
           (NetworkLink.mk "C" "n0" "n3" 1) (NetworkLink.mk "D" "n1" "n2" 1) "n0" "n1");
    [reflexivity|reflexivity|reflexivity|reflexivity|discriminate|by left|by left|exact Hrtc].
Defined.

(** Three links between the same two nodes: the third is not found from
    the first, the second having used both directions. *)
Example parallel_links_missed :
  let self := load_network init
                [NetworkLink.mk "S" "u" "v" 1; NetworkLink.mk "T1" "u" "v" 1;
                 NetworkLink.mk "T" "u" "v" 1] in
  no_parallel self = false ∧
  bfs_paths self (_build_graph self) "S" "T" = Ok [].
Proof. split; vm_compute; reflexivity. Qed.

(** X9. In a network where no two links join the same two nodes, the run
    gives a distance to every ordered pair of distinct links that are
    connected: the distance table has an entry for the pair. *)
Theorem connected_pairs_have_distance (self : NetworkAnalyzer)
    (start_link end_link : string)
    (start_link_data end_link_data : NetworkLink.t) (a b : string) :
  fresh self = true →
  no_parallel self = true →
  dict_get (links self) start_link = Some start_link_data →
  dict_get (links self) end_link = Some end_link_data →
  start_link ≠ end_link →
  end_of start_link_data a → end_of end_link_data b →
  rtc (linked self) a b →
  ∃ a1 a2 distance,
    find_all_paths self = Ok a1 ∧
    compute_shortest_distances a1 = Ok a2 ∧
    dict_get (distances a2) (start_link, end_link) = Some distance.
Proof.
  intros Hfresh Hnp Hs Ht Hne Ha Hb Hrtc.
  destruct (analysis_run self Hfresh)
    as (entries & table & Hrun1 & Hrun2 & Hkeys & Hentries & Htkeys & _).
  apply fresh_spec in Hfresh as (Hcons & _ & _).
  pose proof (proj1 (consistent_spec self) Hcons) as [Hnd _].
  assert ((start_link, end_link) ∈ entries.*1) as Hin.
  { rewrite Hkeys. apply elem_of_permutations2; [done|].
    split_and!; [apply dict_get_is_Some; by eexists..|done]. }
  apply list_elem_of_fmap in Hin as ([k ps] & Hk & Hin). cbn in Hk. subst k.
  rewrite Forall_forall in Hentries. specialize (Hentries _ Hin). cbn in Hentries.
  assert (ps ≠ []) as Hnonempty.
  { unfold bfs_paths, dict_item in Hentries. rewrite Hs in Hentries.
    cbn [of_option mbind result_bind] in Hentries.
    by apply (bfs_while_nonempty self start_link end_link start_link_data end_link_data
                a b (bfs_fuel self)). }
  assert ((start_link, end_link) ∈ keys table) as Hkey.
  { unfold keys. rewrite Htkeys. apply list_elem_of_fmap.
    exists (start_link, end_link, ps). split; [done|].
    apply list_elem_of_filter. by split. }
  apply dict_get_is_Some in Hkey as [distance Hd].
  by exists (set_paths self entries), (set_distances (set_paths self entries) table), distance.
Qed.

Lemma connected_pairs_have_distance_witness :
  fresh tri4_loaded = true ∧
  no_parallel tri4_loaded = true ∧
  dict_get (links tri4_loaded) "D" = Some (NetworkLink.mk "D" "n1" "n2" 1) ∧
  dict_get (links tri4_loaded) "C" = Some (NetworkLink.mk "C" "n0" "n3" 1) ∧
  "D" ≠ "C" ∧
  end_of (NetworkLink.mk "D" "n1" "n2" 1) "n1" ∧
  end_of (NetworkLink.mk "C" "n0" "n3" 1) "n0" ∧
  rtc (linked tri4_loaded) "n1" "n0" ∧
  ∃ a1 a2 distance,
    find_all_paths tri4_loaded = Ok a1 ∧
    compute_shortest_distances a1 = Ok a2 ∧
    dict_get (distances a2) ("D", "C") = Some distance.
Proof.
  assert (rtc (linked tri4_loaded) "n1" "n0") as Hrtc.
  { apply rtc_once. exists "A". apply adjacent_build_graph.
    exists (NetworkLink.mk "A" "n0" "n1" 2). split; [left|].
    split; [reflexivity|]. right. split; reflexivity. }
  do 4 (split; [reflexivity|]). split; [discriminate|].
  split; [by left|]. split; [by left|]. split; [exact Hrtc|].
  apply (connected_pairs_have_distance tri4_loaded "D" "C"
           (NetworkLink.mk "D" "n1" "n2" 1) (NetworkLink.mk "C" "n0" "n3" 1) "n1" "n0");
    [reflexivity|reflexivity|reflexivity|reflexivity|discriminate|by left|by left|exact Hrtc].
Defined.

(** ** Path enumerator: only connected links, and neighbours first *)

Lemma walk_reaches self start_link_data start_link node path :
  walk self start_link_data start_link node path →
  ∃ a, end_of start_link_data a ∧ rtc (linked self) a node.
Proof.
  induction 1 as [| |n path l neighbor link _ (a & Ha & Hrtc) Hl Hreal].
  - eexists. split; [by left|done].
  - eexists. split; [by right|done].
  - exists a. split; [done|]. eapply rtc_r; [exact Hrtc|].
    exists link. apply adjacent_build_graph. by exists l.
Qed.

Lemma walk_last self start_link_data start_link node path end_link :
  walk self start_link_data start_link node path →
  last path = Some end_link → start_link ≠ end_link →
  ∃ a n l, end_of start_link_data a ∧ rtc (linked self) a n ∧
    l ∈ values (links self) ∧ NetworkLink.id l = end_link ∧ end_of l n.
Proof.
  intros Hwalk Hlast Hne.
  destruct Hwalk as [| |n path l neighbor link Hwalk Hl (Hid & Hends)];
    [cbn in Hlast; congruence..|].
  rewrite last_snoc in Hlast. injection Hlast as ->.
  destruct (walk_reaches _ _ _ _ _ Hwalk) as (a & Ha & Hrtc).
  exists a, n, l. split_and!; [done..|]. unfold end_of. naive_solver.
Qed.

(** X22. The enumerator returns paths between connected links only: when a
    query for two distinct links returns a path, some node of the target
    link can be reached from some node of the source link by going from
    node to node along links. *)
Theorem bfs_paths_only_connected (self : NetworkAnalyzer) (start_link end_link : string)
    (start_link_data end_link_data : NetworkLink.t) (ps : list Path) (path : Path) :
  consistent self = true →
  dict_get (links self) start_link = Some start_link_data →
  dict_get (links self) end_link = Some end_link_data →
  start_link ≠ end_link →
  bfs_paths self (_build_graph self) start_link end_link = Ok ps →
  path ∈ ps →
  ∃ a b, end_of start_link_data a ∧ end_of end_link_data b ∧ rtc (linked self) a b.
Proof.
  intros Hcons Hs Ht Hne Hrun Hin.
  unfold bfs_paths, dict_item in Hrun. rewrite Hs in Hrun. cbn [of_option mbind result_bind] in Hrun.
  assert (start_link ∈ keys (links self)) as Hkey by (apply dict_get_is_Some; eauto).
  destruct (bfs_while_invariant (_build_graph self) end_link
              (λ st, walk_invariant self start_link_data start_link st ∧
                     shape_invariant self start_link end_link st))
    with (fuel := bfs_fuel self) (st := bfs_init start_link_data start_link) (ps := ps)
    as (final & [[_ Hwalk] [_ Hshape]] & _ & Hfound).
  { intros st st' [? ?] Hstep. split.
    - by apply (walk_step self start_link_data start_link end_link st st').
    - by apply (shape_step self start_link end_link Hcons st st'). }
  { split; [apply walk_init|by apply shape_init]. }
  { exact Hrun. }
  rewrite <-Hfound in Hin.
  destruct (Hwalk path Hin) as [node Hnode].
  destruct (Hshape path Hin) as [_ Hlast].
  destruct (walk_last _ _ _ _ _ _ Hnode Hlast Hne) as (a & n & l & Ha & Hrtc & Hl & Hid & Hn).
  exists a, n. split_and!; [done| |done].
  pose proof (proj1 (consistent_spec self) Hcons) as [Hnd Hids].
  apply list_elem_of_fmap in Hl as ([k d] & -> & Hl). cbn in Hid, Hn.
  rewrite (Hids _ _ Hl) in Hid. subst k.
  rewrite (dict_get_elem _ _ _ Hnd Hl) in Ht. by injection Ht as <-.
Qed.

Lemma bfs_paths_only_connected_witness :
  consistent tri4_loaded = true ∧
  dict_get (links tri4_loaded) "C" = Some (NetworkLink.mk "C" "n0" "n3" 1) ∧
  dict_get (links tri4_loaded) "D" = Some (NetworkLink.mk "D" "n1" "n2" 1) ∧
  "C" ≠ "D" ∧
  bfs_paths tri4_loaded (_build_graph tri4_loaded) "C" "D"
    = Ok [["C"; "A"; "D"]; ["C"; "B"; "D"]] ∧
  ["C"; "A"; "D"] ∈ [["C"; "A"; "D"]; ["C"; "B"; "D"]] ∧
  ∃ a b, end_of (NetworkLink.mk "C" "n0" "n3" 1) a ∧
         end_of (NetworkLink.mk "D" "n1" "n2" 1) b ∧ rtc (linked tri4_loaded) a b.
Proof.
  do 3 (split; [reflexivity|]). split; [discriminate|].
  split; [vm_compute; reflexivity|]. split; [left|].
  apply (bfs_paths_only_connected tri4_loaded "C" "D" _ _
           [["C"; "A"; "D"]; ["C"; "B"; "D"]] ["C"; "A"; "D"]);
    [reflexivity|reflexivity|reflexivity|discriminate|vm_compute; reflexivity|left].
Defined.

Lemma visit_fold_appends current_node path adj neighbor link : ∀ q v,
  (neighbor, link) ∈ adj → link ∉ path → (current_node, neighbor) ∉ v →
  (∀ link', (neighbor, link') ∈ adj → link' = link) →
  (neighbor, path ++ [link]) ∈ (fold_left (visit current_node path) adj (q, v)).1.
Proof.
  induction adj as [|[n l] adj IH]; intros q v Hin Hlink Hfresh Huniq.
  { inversion Hin. }
  cbn [fold_left].
  destruct (decide (n = neighbor)) as [->|Hn].
  - assert (l = link) as -> by (apply Huniq; left).
    unfold visit at 2. cbn [fst snd].
    rewrite (bool_decide_eq_true_2 (link ∉ path)) by done.
    rewrite (bool_decide_eq_true_2 (_ ∉ v)) by done. cbn [andb].
    destruct (visit_fold current_node path adj (q ++ [(neighbor, path ++ [link])])
                (v ∪ {[(current_node, neighbor)]})) as (new & -> & _).
    cbn [fst]. rewrite <-app_assoc. apply elem_of_app. right. left.
  - apply elem_of_cons in Hin as [[= ? ?]|Hin]; [done|].
    rewrite (surjective_pairing (visit current_node path (q, v) (n, l))).
    apply IH; [done..| |].
    + unfold visit. cbn [fst snd]. destruct (_ && _); cbn [snd]; [|done].
      intros [?|[= ?]%elem_of_singleton]%elem_of_union; done.
    + intros link' ?. apply Huniq. by right.
Qed.

Lemma queued_recorded graph end_link fuel st ps node path :
  bfs_while fuel graph end_link st = Ok ps →
  (node, path) ∈ queue st → last path = Some end_link →
  path ∈ ps.
Proof.
  intros Hwhile Hin Hlast.
  destruct (bfs_while_invariant graph end_link
              (λ st, path ∈ found st ∨ (node, path) ∈ queue st))
    with (fuel := fuel) (st := st) (ps := ps) as (final & Hinv & Hq & Hfound).
  - intros st1 st2 [Hf|Hq] Hstep.
    + left. by apply (bfs_step_found _ _ _ _ _ Hstep).
    + destruct (bfs_step_spec _ _ _ _ Hstep)
        as [c p rest Hqueue _ ->|c p rest new Hqueue Hend -> _ _ _]; cbn [found queue].
      * rewrite Hqueue in Hq. apply elem_of_cons in Hq as [[= -> ->]|Hq].
        -- left. apply elem_of_app. right. left.
        -- by right.
      * rewrite Hqueue in Hq. apply elem_of_cons in Hq as [[= -> ->]|Hq]; [done|].
        right. apply elem_of_app. by left.
  - by right.
  - exact Hwhile.
  - rewrite <-Hfound. destruct Hinv as [?|Hin']; [done|].
    rewrite Hq in Hin'. inversion Hin'.
Qed.

Lemma bfs_step_expand graph end_link current_node path rest v f :
  last path ≠ Some end_link →
  bfs_step graph end_link (mkBfs ((current_node, path) :: rest) v f)
  = Some (mkBfs
            (fold_left (visit current_node path) (default [] (graph !! current_node))
               (rest, v)).1
            (fold_left (visit current_node path) (default [] (graph !! current_node))
               (rest, v)).2 f).
Proof. intros Hlast. unfold bfs_step. cbn [queue]. by rewrite bool_decide_eq_false_2. Qed.

(** X23. In a network where no two links join the same two nodes, the
    first path a query returns for two distinct links that share a node is
    the direct one, made of the source link and the target link. *)
Theorem adjacent_links_direct_path (self : NetworkAnalyzer) (start_link end_link : string)
    (start_link_data end_link_data : NetworkLink.t) (node : string) :
  consistent self = true →
  no_parallel self = true →
  dict_get (links self) start_link = Some start_link_data →
  dict_get (links self) end_link = Some end_link_data →
  start_link ≠ end_link →
  end_of start_link_data node → end_of end_link_data node →
  ∃ ps, bfs_paths self (_build_graph self) start_link end_link = Ok ps ∧
    head ps = Some [start_link; end_link].
Proof.
  intros Hcons Hnp Hs Ht Hne Hu_s Hu_t.
  destruct (bfs_run self start_link_data start_link end_link)
    as (n & final & _ & _ & _ & _ & _ & _ & Hwhile).
  set (graph := _build_graph self) in *.
  set (st0 := bfs_init start_link_data start_link) in *.
  exists (found final). unfold bfs_paths, dict_item. rewrite Hs.
  cbn [of_option mbind result_bind]. split; [exact Hwhile|].
  (* the other node of the target, and its entry under the shared node *)
  pose proof (proj1 (consistent_spec self) Hcons) as [_ Hids].
  pose proof (Hids _ _ (dict_get_Some_elem _ _ _ Ht)) as Hid.
  destruct (adjacent_of_link self end_link end_link_data Ht Hid) as [Hfwd Hbwd].
  assert (∃ other, adjacent graph node other end_link) as [other Hadj].
  { destruct Hu_t as [->| ->]; eauto. }
  assert (∀ link', (other, link') ∈ default [] (graph !! node) → link' = end_link) as Huniq.
  { intros link' Hin. by apply (no_parallel_spec self node other link' end_link). }
  assert (end_link ∉ [start_link]) as Hnotin.
  { intros ->%list_elem_of_singleton. done. }
  assert (last [start_link] ≠ Some end_link) as Hlast0 by (cbn; congruence).
  (* the direct path is recorded *)
  assert ([start_link; end_link] ∈ found final) as Hdirect.
  { pose proof (bfs_step_expand graph end_link (NetworkLink.start_node start_link_data)
                  [start_link] [(NetworkLink.end_node start_link_data, [start_link])]
                  ∅ [] Hlast0) as Hstep1.
    destruct (decide (node = NetworkLink.start_node start_link_data)) as [->|Hnode].
    - assert (bfs_iter 1 graph end_link st0 = Some (mkBfs
                (fold_left (visit (NetworkLink.start_node start_link_data) [start_link])
                   (default [] (graph !! NetworkLink.start_node start_link_data))
                   ([(NetworkLink.end_node start_link_data, [start_link])], ∅)).1
                (fold_left (visit (NetworkLink.start_node start_link_data) [start_link])
                   (default [] (graph !! NetworkLink.start_node start_link_data))
                   ([(NetworkLink.end_node start_link_data, [start_link])], ∅)).2 []))
        as Hiter.
      { cbn [bfs_iter]. unfold st0, bfs_init. by rewrite Hstep1. }
      pose proof (bfs_while_iter graph end_link 1 _ _ _ _ Hiter Hwhile) as Hwhile1.
      eapply (queued_recorded graph end_link _ _ _ other); [exact Hwhile1| |done].
      cbn [queue]. by apply (visit_fold_appends _ [start_link]).
    - assert (node = NetworkLink.end_node start_link_data) as -> by (by destruct Hu_s).
      destruct (visit_fold (NetworkLink.start_node start_link_data) [start_link]
                  (default [] (graph !! NetworkLink.start_node start_link_data))
                  [(NetworkLink.end_node start_link_data, [start_link])] ∅)
        as (new1 & Hfold1 & _).
      rewrite Hfold1 in Hstep1. cbn [fst snd app] in Hstep1.
      set (v1 := ∅ ∪ list_to_set (pair (NetworkLink.start_node start_link_data) <$> new1.*1))
        in Hstep1.
      pose proof (bfs_step_expand graph end_link (NetworkLink.end_node start_link_data)
                    [start_link] new1 v1 [] Hlast0) as Hstep2.
      assert (bfs_iter 2 graph end_link st0 = Some (mkBfs
                (fold_left (visit (NetworkLink.end_node start_link_data) [start_link])
                   (default [] (graph !! NetworkLink.end_node start_link_data))
                   (new1, v1)).1
                (fold_left (visit (NetworkLink.end_node start_link_data) [start_link])
                   (default [] (graph !! NetworkLink.end_node start_link_data))
                   (new1, v1)).2 []))
        as Hiter.
      { cbn [bfs_iter]. unfold st0, bfs_init. rewrite Hstep1. cbn [mbind option_bind].
        by rewrite Hstep2. }
      pose proof (bfs_while_iter graph end_link 2 _ _ _ _ Hiter Hwhile) as Hwhile2.
      eapply (queued_recorded graph end_link _ _ _ other); [exact Hwhile2| |done].
      cbn [queue]. apply (visit_fold_appends _ [start_link]); [done..| |done].
      unfold v1. intros [Hin|Hin]%elem_of_union; [by apply not_elem_of_empty in Hin|].
      apply elem_of_list_to_set, list_elem_of_fmap in Hin as (? & [= ? ?] & _).
      congruence. }
  (* it comes first *)
  assert (start_link ∈ keys (links self)) as Hkey by (apply dict_get_is_Some; eauto).
  destruct (bfs_while_invariant graph end_link
              (λ st, layered st ∧ shape_invariant self start_link end_link st))
    with (fuel := bfs_fuel self) (st := st0) (ps := found final)
    as (final' & [[Hsorted _] [_ Hshape]] & Hq & Hfound).
  { intros st st' [? ?] Hstep. split.
    - by apply (layered_step graph end_link st st').
    - by apply (shape_step self start_link end_link Hcons st st'). }
  { split; [apply layered_init|by apply shape_init]. }
  { exact Hwhile. }
  unfold profile in Hsorted. rewrite Hq, Hfound, app_nil_r in Hsorted.
  rewrite Hfound in Hshape.
  destruct (found final) as [|p0 ps] eqn:Hps; [inversion Hdirect|]. cbn [head]. f_equal.
  apply list_elem_of_lookup in Hdirect as [j Hj].
  assert (length p0 ≤ 2)%nat as Hle.
  { apply (StronglySorted_le_lookup _ Hsorted 0 j); [lia|done|].
    by rewrite list_lookup_fmap, Hj. }
  destruct (Hshape p0) as [(Hhead & _ & _) Hlast]; [left|].
  destruct p0 as [|a [|b [|c p0]]]; cbn in Hle, Hhead, Hlast; try lia; congruence.
Qed.

Lemma adjacent_links_direct_path_witness :
  consistent tri4_loaded = true ∧
  no_parallel tri4_loaded = true ∧
  dict_get (links tri4_loaded) "C" = Some (NetworkLink.mk "C" "n0" "n3" 1) ∧
  dict_get (links tri4_loaded) "A" = Some (NetworkLink.mk "A" "n0" "n1" 2) ∧
  "C" ≠ "A" ∧
  end_of (NetworkLink.mk "C" "n0" "n3" 1) "n0" ∧
  end_of (NetworkLink.mk "A" "n0" "n1" 2) "n0" ∧
  ∃ ps, bfs_paths tri4_loaded (_build_graph tri4_loaded) "C" "A" = Ok ps ∧
    head ps = Some ["C"; "A"].
Proof.
  do 4 (split; [reflexivity|]). split; [discriminate|].
  split; [by left|]. split; [by left|].
  apply (adjacent_links_direct_path tri4_loaded "C" "A"
           (NetworkLink.mk "C" "n0" "n3" 1) (NetworkLink.mk "A" "n0" "n1" 2) "n0");
    [reflexivity|reflexivity|reflexivity|reflexivity|discriminate|by left|by left].
Defined.

(** ** The path set: size and re-runs *)

Lemma length_permutations2_from {A} (after : list A) : ∀ before,
  length (permutations2_from before after)
  = (length after * (length before + length after - 1))%nat.
Proof.
  induction after as [|x after IH]; intros before; cbn [permutations2_from]; [done|].
  rewrite length_app, length_fmap, IH, !length_app. cbn [length]. nia.
Qed.

Lemma length_permutations2 {A} (xs : list A) :
  length (permutations2 xs) = (length xs * (length xs - 1))%nat.
Proof. unfold permutations2. rewrite length_permutations2_from. cbn. f_equal. Qed.

Lemma foldM_fixed {A B} (f : A → B → result A) (xs : list B) (acc : A) :
  (∀ x, x ∈ xs → f acc x = Ok acc) → foldM f xs acc = Ok acc.
Proof.
  induction xs as [|x xs IH]; intros Hf; cbn [foldM]; [done|].
  rewrite Hf by left. cbn. apply IH. intros y Hy. apply Hf. by right.
Qed.

Lemma dict_set_same {K V} `{EqDecision K} (d : dict K V) k v :
  dict_get d k = Some v → dict_set d k v = d.
Proof.
  induction d as [|[k' v'] d IH]; cbn; [done|].
  case_decide; [intros [= ->]; by subst|]. intros ?. f_equal. by apply IH.
Qed.

Lemma build_graph_links self self' :
  links self' = links self → _build_graph self' = _build_graph self.
Proof. unfold _build_graph. by intros ->. Qed.

(** X10. On an analyzer whose links are loaded and whose path set is empty,
    [find_all_paths] fills the path set with one entry for every ordered
    pair of distinct links, in the order of [permutations], n(n-1) entries
    for n links, and changes nothing else of the analyzer. *)
Theorem find_all_paths_entries (self : NetworkAnalyzer) :
  consistent self = true → paths self = [] →
  ∃ a, find_all_paths self = Ok a ∧
    keys (paths a) = permutations2 (keys (links self)) ∧
    length (paths a) = (length (links self) * (length (links self) - 1))%nat ∧
    (∀ source target,
       (source, target) ∈ keys (paths a) ↔
       source ∈ keys (links self) ∧ target ∈ keys (links self) ∧ source ≠ target) ∧
    links a = links self ∧ distances a = distances self ∧
    link_indices a = link_indices self.
Proof.
  intros Hcons Hpaths.
  destruct (find_all_paths_spec self Hcons Hpaths) as (entries & Hrun & Hkeys & _).
  exists (set_paths self entries). split; [exact Hrun|].
  cbn [paths links distances link_indices set_paths]. unfold keys at 1 3.
  rewrite Hkeys. split_and!; try done.
  - rewrite <-(length_fmap fst), Hkeys, length_permutations2.
    unfold keys. by rewrite length_fmap.
  - intros source target. apply elem_of_permutations2.
    by apply consistent_spec in Hcons as [? _].
Qed.

Lemma find_all_paths_entries_witness :
  consistent tri4_loaded = true ∧ paths tri4_loaded = [] ∧
  ∃ a, find_all_paths tri4_loaded = Ok a ∧
    keys (paths a) = permutations2 (keys (links tri4_loaded)) ∧
    length (paths a) = (length (links tri4_loaded) * (length (links tri4_loaded) - 1))%nat ∧
    (∀ source target,
       (source, target) ∈ keys (paths a) ↔
       source ∈ keys (links tri4_loaded) ∧ target ∈ keys (links tri4_loaded) ∧
       source ≠ target) ∧
    links a = links tri4_loaded ∧ distances a = distances tri4_loaded ∧
    link_indices a = link_indices tri4_loaded.
Proof.
  split; [reflexivity|]. split; [reflexivity|].
  apply (find_all_paths_entries tri4_loaded); reflexivity.
Defined.

(** X11. Both passes can be run again: on the analyzer the run has reached
    after [find_all_paths] and [compute_shortest_distances], each of the two
    returns the analyzer unchanged. *)
Theorem passes_idempotent (self : NetworkAnalyzer) :
  fresh self = true →
  ∃ a1 a2,
    find_all_paths self = Ok a1 ∧
    compute_shortest_distances a1 = Ok a2 ∧
    find_all_paths a2 = Ok a2 ∧
    compute_shortest_distances a2 = Ok a2.
Proof.
  intros Hfresh.
  destruct (analysis_run self Hfresh)
    as (entries & table & Hrun1 & Hrun2 & Hkeys & Hentries & Htkeys & Htable).
  apply fresh_spec in Hfresh as (Hcons & Hpaths & Hdist).
  pose proof (proj1 (consistent_spec self) Hcons) as [Hnd _].
  exists (set_paths self entries), (set_distances (set_paths self entries) table).
  split; [exact Hrun1|]. split; [exact Hrun2|].
  set (a2 := set_distances (set_paths self entries) table).
  assert (NoDup entries.*1) as Hnd_e by (rewrite Hkeys; by apply NoDup_permutations2).
  assert (a2 = mkAnalyzer (links self) entries table (link_indices self)) as Ha2 by done.
  split.
  - unfold find_all_paths. apply foldM_fixed. intros [source target] Hin.
    change (links a2) with (links self) in Hin. rewrite <-Hkeys in Hin.
    apply list_elem_of_fmap in Hin as ([k ps] & Hk & Hin). cbn in Hk. subst k.
    rewrite (build_graph_links self a2), (bfs_paths_links self a2) by done.
    rewrite Forall_forall in Hentries. specialize (Hentries _ Hin). cbn in Hentries.
    rewrite Hentries. cbn.
    rewrite dict_set_same; [by rewrite Ha2|].
    by apply dict_get_elem.
  - unfold compute_shortest_distances. apply foldM_fixed. intros [pair ps] Hin.
    change (paths a2) with entries in Hin.
    destruct ps as [|p ps]; [done|].
    assert (pair ∈ table.*1) as Hpair.
    { rewrite Htkeys. apply list_elem_of_fmap. exists (pair, p :: ps). split; [done|].
      apply list_elem_of_filter. split; [by unfold reachable|done]. }
    apply list_elem_of_fmap in Hpair as ([k m] & Hk & Hm). cbn in Hk. subst k.
    rewrite Forall_forall in Htable.
    destruct (Htable _ Hm) as (ps' & ds & Hps' & _ & Hds & Hmin). cbn in Hps', Hmin.
    assert (ps' = p :: ps) as ->.
    { pose proof (dict_get_elem entries pair _ Hnd_e Hin) as H1.
      pose proof (dict_get_elem entries pair _ Hnd_e Hps') as H2. congruence. }
    assert (mapM (compute_path_distance a2) (p :: ps) = Ok ds) as ->.
    { rewrite <-Hds. clear. induction (p :: ps) as [|x xs IH]; cbn [mapM]; [done|].
      by rewrite IH, (compute_path_distance_links self a2). }
    cbn. rewrite Hmin. cbn.
    rewrite dict_set_same; [by rewrite Ha2|].
    apply dict_get_elem; [|done]. change (distances a2) with table.
    unfold keys. rewrite Htkeys.
    eapply sublist_NoDup; [exact Hnd_e|]. apply fmap_sublist, sublist_filter.
Qed.

Lemma passes_idempotent_witness :
  fresh tri4_loaded = true ∧
  ∃ a1 a2,
    find_all_paths tri4_loaded = Ok a1 ∧
    compute_shortest_distances a1 = Ok a2 ∧
    find_all_paths a2 = Ok a2 ∧
    compute_shortest_distances a2 = Ok a2.
Proof. split; [reflexivity|]. apply (passes_idempotent tri4_loaded). reflexivity. Defined.

(** ** Missing links *)

Lemma mapM_Raise {A B} (f : A → result B) (e : exn) xs :
  (∀ x e', x ∈ xs → f x = Raise e' → e' = e) →
  (∃ x, x ∈ xs ∧ f x = Raise e) →
  mapM f xs = Raise e.
Proof.
  induction xs as [|x xs IH]; intros Hall (x0 & Hin & Hx0); [inversion Hin|].
  cbn [mapM]. destruct (f x) as [y|e'] eqn:Hfx; cbn.
  - rewrite IH; [done| |].
    + intros x' e'' ?. apply Hall. by right.
    + apply elem_of_cons in Hin as [->|Hin]; [congruence|by exists x0].
  - f_equal. eapply Hall; [left|exact Hfx].
Qed.

Lemma mapM_Raise_inv {A B} (f : A → result B) (e : exn) xs :
  mapM f xs = Raise e → ∃ x, x ∈ xs ∧ f x = Raise e.
Proof.
  induction xs as [|x xs IH]; cbn [mapM]; [done|].
  destruct (f x) as [y|e'] eqn:Hfx; cbn.
  - destruct (mapM f xs) as [ys|e'']; cbn; [done|].
    intros [= ->]. destruct IH as (x0 & ? & ?); [done|]. exists x0. split; [by right|done].
  - intros [= ->]. exists x. split; [left|done].
Qed.

Lemma link_length_Raise self link e :
  link_length self link = Raise e → e = KeyError ∧ link ∉ keys (links self).
Proof.
  unfold link_length, dict_item. destruct (dict_get (links self) link) eqn:Hget; cbn; [done|].
  intros [= <-]. split; [done|]. by apply dict_get_None.
Qed.

Lemma compute_path_distance_unknown self path link :
  link ∈ path → link ∉ keys (links self) →
  compute_path_distance self path = Raise KeyError.
Proof.
  intros Hin Hunknown. destruct path as [|first rest]; [inversion Hin|].
  unfold compute_path_distance.
  rewrite (mapM_Raise (link_length self) KeyError); [done| |].
  - intros x e' _ Hx. by apply link_length_Raise in Hx as [-> _].
  - exists link. split; [done|]. unfold link_length, dict_item.
    by rewrite (proj2 (dict_get_None (links self) link) Hunknown).
Qed.

Lemma compute_path_distance_Raise self path e :
  compute_path_distance self path = Raise e →
  e = KeyError ∧ ∃ link, link ∈ path ∧ link ∉ keys (links self).
Proof.
  intros Hraise.
  destruct (decide (Forall (λ link, link ∈ keys (links self)) path)) as [Hall|Hnot].
  { rewrite Forall_forall in Hall.
    destruct (compute_path_distance_total self path Hall) as [d Hd]. congruence. }
  apply not_Forall_Exists in Hnot; [|apply _].
  apply Exists_exists in Hnot as (link & Hin & Hunknown). split; [|by exists link].
  rewrite (compute_path_distance_unknown self path link Hin Hunknown) in Hraise. congruence.
Qed.

(** X12. [compute_path_distance] fails exactly when the path names a link
    that is not loaded, and then with the [KeyError] of the lookup; on every
    other path, the empty one included, it returns a distance. *)
Theorem compute_path_distance_errors (self : NetworkAnalyzer) (path : Path) :
  (compute_path_distance self path = Raise KeyError ↔
   ∃ link, link ∈ path ∧ link ∉ keys (links self)) ∧
  ((∃ d, compute_path_distance self path = Ok d) ↔
   ∀ link, link ∈ path → link ∈ keys (links self)) ∧
  (∀ e, compute_path_distance self path = Raise e → e = KeyError).
Proof.
  split_and!.
  - split; [by intros [_ ?]%compute_path_distance_Raise|].
    intros (link & Hin & Hunknown). by apply (compute_path_distance_unknown self path link).
  - split; [|apply compute_path_distance_total].
    intros [d Hd] link Hin.
    destruct (decide (link ∈ keys (links self))) as [|Hunknown]; [done|].
    rewrite (compute_path_distance_unknown self path link Hin Hunknown) in Hd. done.
  - by intros e [-> _]%compute_path_distance_Raise.
Qed.


Lemma py_min_Ok (ds : list float) : ds ≠ [] → ∃ m, py_min ds = Ok m.
Proof. destruct ds; [done|]. intros _. by eexists. Qed.

Lemma mapM_length {A B} (f : A → result B) xs ys :
  mapM f xs = Ok ys → length ys = length xs.
Proof. intros H%mapM_Ok. symmetry. by eapply Forall2_length. Qed.

Lemma compute_shortest_distances_Ok self
    (entries : list ((string * string) * list Path)) : ∀ acc,
  links acc = links self →
  (∀ entry path link,
     entry ∈ entries → path ∈ entry.2 → link ∈ path → link ∈ keys (links self)) →
  ∃ a,
    foldM (λ self '(link_pair, ps),
             match ps with
             | [] => Ok self
             | _ :: _ =>
                 ds ← mapM (compute_path_distance self) ps;
                 m ← py_min ds;
                 Ok (set_distances self (dict_set (distances self) link_pair m))
             end)
          entries acc = Ok a ∧
    links a = links acc ∧ paths a = paths acc ∧ link_indices a = link_indices acc ∧
    (∀ k, k ∈ keys (distances a) ↔
          k ∈ keys (distances acc) ∨ k ∈ keys (filter reachable entries)).
Proof.
  induction entries as [|[pair ps] entries IH]; intros acc Hlinks Hknown; cbn [foldM].
  { exists acc. split_and!; try done. intros k. rewrite filter_nil. cbn. set_solver. }
  destruct ps as [|p ps].
  - cbn. destruct (IH acc Hlinks) as (a & -> & ? & ? & ? & Hk).
    { intros entry path link ?. apply Hknown. by right. }
    exists a. by split_and!.
  - destruct (mapM_total (compute_path_distance acc) (p :: ps)) as [ds Hds].
    { intros path Hpath. apply compute_path_distance_total. intros link Hlink.
      rewrite Hlinks. eapply (Hknown (pair, p :: ps)); [left|exact Hpath|exact Hlink]. }
    rewrite Hds. cbn.
    destruct (py_min_Ok ds) as [m ->].
    { apply mapM_length in Hds. by destruct ds. }
    cbn.
    destruct (IH (set_distances acc (dict_set (distances acc) pair m)))
      as (a & -> & ? & ? & ? & Hk); [done| |].
    { intros entry path link ?. apply Hknown. by right. }
    exists a. split_and!; try done. intros k. rewrite Hk.
    cbn [distances set_distances]. rewrite keys_dict_set.
    destruct (decide (reachable (pair, p :: ps))) as [_|Hne]; [|by destruct Hne].
    unfold keys at 4. rewrite fmap_cons. cbn [fst].
    case_decide; set_solver.
Qed.

Lemma compute_shortest_distances_Raise self
    (entries : list ((string * string) * list Path)) : ∀ acc e,
  links acc = links self →
  foldM (λ self '(link_pair, ps),
           match ps with
           | [] => Ok self
           | _ :: _ =>
               ds ← mapM (compute_path_distance self) ps;
               m ← py_min ds;
               Ok (set_distances self (dict_set (distances self) link_pair m))
           end)
        entries acc = Raise e →
  e = KeyError ∧
  ∃ entry path link,
    entry ∈ entries ∧ path ∈ entry.2 ∧ link ∈ path ∧ link ∉ keys (links self).
Proof.
  induction entries as [|[pair ps] entries IH]; intros acc e Hlinks; cbn [foldM]; [done|].
  assert (∀ acc', links acc' = links self →
            foldM (λ self '(link_pair, ps),
                     match ps with
                     | [] => Ok self
                     | _ :: _ =>
                         ds ← mapM (compute_path_distance self) ps;
                         m ← py_min ds;
                         Ok (set_distances self (dict_set (distances self) link_pair m))
                     end) entries acc' = Raise e →
            e = KeyError ∧
            ∃ entry path link,
              entry ∈ (pair, ps) :: entries ∧ path ∈ entry.2 ∧ link ∈ path ∧
              link ∉ keys (links self)) as Hrest.
  { intros acc' Hacc' Hraise.
    destruct (IH acc' e Hacc' Hraise) as (-> & entry & path & link & ? & ? & ? & ?).
    split; [done|]. exists entry, path, link. split_and!; try done. by right. }
  destruct ps as [|p ps]; [by apply Hrest|].
  destruct (mapM (compute_path_distance acc) (p :: ps)) as [ds|e'] eqn:Hds; cbn.
  - destruct (py_min_Ok ds) as [m ->].
    { apply mapM_length in Hds. by destruct ds. }
    cbn. by apply Hrest.
  - intros [= ->]. apply mapM_Raise_inv in Hds as (path & Hpath & Hraise).
    apply compute_path_distance_Raise in Hraise as (-> & link & Hlink & Hunknown).
    split; [done|]. exists (pair, p :: ps), path, link.
    split_and!; [left|done|done|by rewrite <-Hlinks].
Qed.

Lemma compute_shortest_distances_Ok_inv self
    (entries : list ((string * string) * list Path)) : ∀ acc a,
  links acc = links self →
  foldM (λ self '(link_pair, ps),
           match ps with
           | [] => Ok self
           | _ :: _ =>
               ds ← mapM (compute_path_distance self) ps;
               m ← py_min ds;
               Ok (set_distances self (dict_set (distances self) link_pair m))
           end)
        entries acc = Ok a →
  ∀ entry path link,
    entry ∈ entries → path ∈ entry.2 → link ∈ path → link ∈ keys (links self).
Proof.
  induction entries as [|[pair ps] entries IH]; intros acc a Hlinks; cbn [foldM].
  { intros _ entry path link Hin. inversion Hin. }
  destruct ps as [|p ps].
  - cbn. intros Hrun entry path link [->|Hin]%elem_of_cons.
    + intros Hpath. inversion Hpath.
    + by eapply IH.
  - destruct (mapM (compute_path_distance acc) (p :: ps)) as [ds|e] eqn:Hds; [|done].
    cbn. destruct (py_min ds) as [m|e]; [|done]. cbn.
    intros Hrun entry path link [->|Hin]%elem_of_cons.
    + cbn [snd]. intros Hpath Hlink.
      destruct (decide (link ∈ keys (links self))) as [|Hunknown]; [done|exfalso].
      apply mapM_Ok in Hds.
      apply list_elem_of_lookup in Hpath as [i Hi].
      destruct (Forall2_lookup_l _ _ _ _ _ Hds Hi) as (d & _ & Hd).
      rewrite (compute_path_distance_unknown acc path link) in Hd; [done..|].
      by rewrite Hlinks.
    + refine (IH _ a _ Hrun entry path link Hin). exact Hlinks.
Qed.

(** X13. [compute_shortest_distances] returns exactly when every path of
    the path set names loaded links only; a path with a link that is not
    loaded makes it fail with [KeyError] and nothing else can.  When it
    returns, the links, the path set and the link indices are unchanged, and
    the table has the keys it had and those of the non-empty entries: no
    entry of the table is ever taken out. *)
Theorem compute_shortest_distances_errors (self : NetworkAnalyzer) :
  (paths_known self →
   ∃ a, compute_shortest_distances self = Ok a ∧
     links a = links self ∧ paths a = paths self ∧
     link_indices a = link_indices self ∧
     ∀ k, k ∈ keys (distances a) ↔
          k ∈ keys (distances self) ∨ k ∈ keys (filter reachable (paths self))) ∧
  ((∃ a, compute_shortest_distances self = Ok a) → paths_known self) ∧
  (∀ e, compute_shortest_distances self = Raise e → e = KeyError).
Proof.
  split_and!.
  - intros Hknown. by apply (compute_shortest_distances_Ok self (paths self) self).
  - intros [a Ha].
    exact (compute_shortest_distances_Ok_inv self (paths self) self a eq_refl Ha).
  - intros e He.
    by apply (compute_shortest_distances_Raise self (paths self) self) in He as [-> _].
Qed.

Lemma compute_shortest_distances_errors_witness :
  paths_known tri4_searched ∧
  ∃ a, compute_shortest_distances tri4_searched = Ok a ∧
    links a = links tri4_searched ∧ paths a = paths tri4_searched ∧
    link_indices a = link_indices tri4_searched ∧
    ∀ k, k ∈ keys (distances a) ↔
         k ∈ keys (distances tri4_searched) ∨
         k ∈ keys (filter reachable (paths tri4_searched)).
Proof.
  assert (paths_known tri4_searched) as Hknown.
  { apply (compute_shortest_distances_errors tri4_searched).
    exists tri4_analyzed. vm_compute. reflexivity. }
  split; [exact Hknown|].
  apply (compute_shortest_distances_errors tri4_searched). exact Hknown.
Defined.

(** ** Matrix assembler: failures and shape *)








(** ** The whole run *)




(** ** Natural order: stability and load order *)

Lemma natural_lt_same_key x y : natural_key x = natural_key y → natural_lt x y = false.
Proof.
  intros Heq. rewrite (proj2 (natural_lt_spec x y)), Heq.
  apply bool_decide_eq_false. by rewrite (proj2 (key_compare_eq _ _) eq_refl).
Qed.


Section Stable.
Context {A : Type} (lt : A → A → bool) (P : A → Prop) `{∀ x, Decision (P x)}.
Hypothesis lt_class : ∀ x y, P x → P y → lt y x = false.

Lemma filter_insert_sorted x l :
filter P (insert_sorted lt x l) = filter P (x :: l).
Proof.
induction l as [|y l IH]; cbn [insert_sorted]; [done|].
destruct (lt y x) eqn:Hlt; [|done].
rewrite filter_cons, IH, !filter_cons.
destruct (decide (P y)) as [Hy|]; [|done].
destruct (decide (P x)) as [Hx|]; [|done].
rewrite lt_class in Hlt; done.
Qed.

Lemma filter_sorted xs : filter P (sorted lt xs) = filter P xs.
Proof.
induction xs as [|x xs IH]; [done|].
cbn [sorted foldr]. rewrite filter_insert_sorted, !filter_cons.
fold (sorted lt xs). by rewrite IH.
Qed.
End Stable.


(** X17. The sort of the identifiers is stable: identifiers with the same
    natural key, such as [A01] and [a1], which differ by case and leading
    zeros only, keep in the matrices the order in which they were loaded. *)
Theorem unique_links_stable (self : NetworkAnalyzer) (key : list token) :
  filter (λ x, natural_key x = key) (unique_links self)
    = filter (λ x, natural_key x = key) (keys (links self)) ∧
  natural_key "A01" = natural_key "a1".
Proof.
  split; [|reflexivity].
  unfold unique_links. apply filter_sorted.
  intros x y Hx Hy. apply natural_lt_same_key. congruence.
Qed.



(** ** Output files *)

Lemma str_inj i j : str i = str j → i = j.
Proof.
  unfold str. intros Heq.
  rewrite <-(DecimalNat.Unsigned.of_to i), <-(DecimalNat.Unsigned.of_to j).
  f_equal. apply (inj Some).
  by rewrite <-!DecimalString.NilEmpty.usu, Heq.
Qed.

Lemma index_to_id_loop (labels : list string) (k : nat) : ∀ start,
  start + k = length labels →
  foldM (λ d idx, link_id ← list_item labels idx; Ok (dict_set d (str idx) link_id))
        (seq start k) (imap (λ i l, (str i, l)) (take start labels))
  = Ok (imap (λ i l, (str i, l)) labels).
Proof.
  induction k as [|k IH]; intros start Hlen; cbn [seq foldM].
  { by rewrite take_ge by lia. }
  destruct (lookup_lt_is_Some_2 labels start) as [l Hl]; [lia|].
  assert (list_item labels start = Ok l) as Hitem by (unfold list_item; by rewrite Hl).
  rewrite Hitem. cbn [mbind result_bind].
  rewrite dict_set_fresh.
  - replace (imap _ (take start labels) ++ [(str start, l)])
      with (imap (λ i l, (str i, l)) (take (S start) labels)); [apply IH; lia|].
    rewrite (take_S_r _ _ _ Hl), imap_app. cbn. rewrite length_take_le by lia.
    by rewrite Nat.add_0_r.
  - unfold keys. intros Hin. apply list_elem_of_fmap in Hin as ([k' l'] & Hk & Hin).
    apply list_elem_of_lookup in Hin as [i Hi].
    rewrite list_lookup_imap in Hi.
    destruct (take start labels !! i) eqn:Ht; [|done]. cbn in Hi, Hk.
    injection Hi as <- <-. apply str_inj in Hk as <-.
    apply lookup_lt_Some in Ht. rewrite length_take in Ht. lia.
Qed.

Lemma index_to_id_imap id_matrix :
  index_to_id id_matrix = Ok (imap (λ i l, (str i, l)) (index id_matrix)).
Proof. unfold index_to_id. by apply (index_to_id_loop (index id_matrix) _ 0). Qed.




Lemma string_app_nil t : "" +:+ t = t.
Proof. reflexivity. Qed.

Lemma string_app_cons a s t : String a s +:+ t = String a (s +:+ t).
Proof. reflexivity. Qed.

Lemma string_length_app s t :
  String.length (s +:+ t) = (String.length s + String.length t)%nat.
Proof.
  induction s as [|a s IH]; [done|].
  rewrite string_app_cons. cbn [String.length]. by rewrite IH.
Qed.

Lemma string_app_assoc s t u : (s +:+ t) +:+ u = s +:+ (t +:+ u).
Proof. induction s as [|a s IH]; [done|]. by rewrite !string_app_cons, IH. Qed.

Lemma length_get_output_filename network_name prefix extension :
  String.length (get_output_filename network_name prefix extension)
  = (String.length prefix + String.length network_name + String.length extension + 2)%nat.
Proof. unfold get_output_filename. rewrite !string_length_app. cbn [String.length]. lia. Qed.

Lemma rfind_free s c : free_of c s = true → rfind s c = (-1)%Z.
Proof.
  unfold free_of. induction s as [|a s IH]; cbn [forallb_string rfind]; [done|].
  intros [Ha Hs]%andb_prop. rewrite (IH Hs). cbn.
  by destruct (Ascii.eqb a c).
Qed.

Lemma rfind_last s c t :
  free_of c t = true → rfind (s +:+ String c t) c = Z.of_nat (String.length s).
Proof.
  intros Ht. induction s as [|a s IH].
  - rewrite string_app_nil. cbn [rfind String.length].
    rewrite (rfind_free t c Ht). cbn. by rewrite Ascii.eqb_refl.
  - rewrite string_app_cons. cbn [rfind String.length].
    rewrite IH. destruct (0 <=? Z.of_nat (String.length s))%Z eqn:E; lia.
Qed.

Lemma slice_from_app s t : slice_from (String.length s) (s +:+ t) = t.
Proof.
  induction s as [|a s IH]; [by destruct t|].
  by rewrite string_app_cons.
Qed.

Lemma slice_to_app s t : slice_to (String.length s) (s +:+ t) = s.
Proof.
  induction s as [|a s IH]; [by destruct t|].
  rewrite string_app_cons. cbn [String.length slice_to]. by rewrite IH.
Qed.

Lemma get_app_here s a t : get (String.length s) (s +:+ String a t) = Some a.
Proof. induction s as [|b s IH]; [done|]. by rewrite string_app_cons. Qed.

Lemma leading_dots_app (s : string) : ∀ pre rest,
  leading_dots (pre +:+ s +:+ rest) (String.length pre) (String.length s)
  = forallb_string (λ a, Ascii.eqb a ".") s.
Proof.
  induction s as [|a s IH]; intros pre rest; [done|].
  rewrite string_app_cons. cbn [String.length leading_dots forallb_string].
  rewrite get_app_here. f_equal.
  specialize (IH (pre +:+ String a "") rest).
  rewrite string_length_app, string_app_assoc, string_app_cons, string_app_nil in IH.
  cbn [String.length] in IH. by rewrite Nat.add_1_r in IH.
Qed.

Lemma free_of_app c s t : free_of c (s +:+ t) = free_of c s && free_of c t.
Proof.
  unfold free_of. induction s as [|a s IH]; [done|].
  rewrite string_app_cons. cbn [forallb_string]. by rewrite IH, andb_assoc.
Qed.

Lemma basename_plain s : free_of "/" s = true → basename s = s.
Proof. intros Hs. unfold basename. by rewrite (rfind_free s "/" Hs). Qed.

Lemma basename_slash dir s : free_of "/" s = true → basename (dir +:+ String "/" s) = s.
Proof.
  intros Hs. unfold basename. rewrite (rfind_last dir "/" s Hs).
  replace (Z.to_nat (Z.of_nat (String.length dir) + 1))
    with (String.length (dir +:+ String "/" ""))
    by (rewrite string_length_app; cbn [String.length]; lia).
  replace (dir +:+ String "/" s) with ((dir +:+ String "/" "") +:+ s)
    by (by rewrite string_app_assoc).
  apply slice_from_app.
Qed.

Lemma splitext_stem stem ext :
  free_of "/" stem = true → forallb_string (λ a, Ascii.eqb a ".") stem = false →
  free_of "/" ext = true → free_of "." ext = true →
  splitext (stem +:+ String "." ext) = (stem, String "." ext).
Proof.
  intros Hstem Hdots Hext1 Hext2. unfold splitext.
  rewrite (rfind_free (stem +:+ String "." ext) "/")
    by (rewrite free_of_app, Hstem; exact Hext1).
  rewrite (rfind_last stem "." ext Hext2).
  replace (Z.to_nat (-1 + 1)) with (String.length "") by done.
  replace (Z.to_nat (Z.of_nat (String.length stem) - (-1 + 1)))
    with (String.length stem) by lia.
  pose proof (leading_dots_app stem "" (String "." ext)) as Hld.
  rewrite string_app_nil in Hld.
  rewrite Hld, Hdots, Nat2Z.id. cbn [negb andb].
  replace (-1 <? Z.of_nat (String.length stem))%Z with true
    by (symmetry; apply Z.ltb_lt; lia).
  by rewrite slice_to_app, slice_from_app.
Qed.

(** X20. The name of the network, from which every output file name is
    made, is the name of the input file without its directories and without
    its last extension; so input files that differ by their directory or by
    their extension only lead to the same output files.  A file name
    that consists of a dot followed by an extension is kept whole. *)
Theorem network_name_stem (dir stem ext : string) :
  free_of "/" stem = true →
  forallb_string (λ a, Ascii.eqb a ".") stem = false →
  free_of "/" ext = true → free_of "." ext = true →
  network_name (dir +:+ "/" +:+ stem +:+ "." +:+ ext) = stem ∧
  network_name (stem +:+ "." +:+ ext) = stem ∧
  network_name ("." +:+ ext) = "." +:+ ext.
Proof.
  intros Hstem Hdots Hext1 Hext2. unfold network_name.
  assert (free_of "/" (stem +:+ String "." ext) = true) as Hfree
    by (rewrite free_of_app, Hstem; exact Hext1).
  rewrite !string_app_cons, !string_app_nil.
  split_and!.
  - rewrite (basename_slash dir _ Hfree). by rewrite splitext_stem.
  - rewrite (basename_plain _ Hfree). by rewrite splitext_stem.
  - rewrite basename_plain by exact Hext1.
    unfold splitext.
    rewrite (rfind_free (String "." ext) "/") by exact Hext1.
    pose proof (rfind_last "" "." ext Hext2) as Hdot.
    rewrite string_app_nil in Hdot. rewrite Hdot. done.
Qed.

Lemma network_name_stem_witness :
  free_of "/" "net2" = true ∧
  forallb_string (λ a, Ascii.eqb a ".") "net2" = false ∧
  free_of "/" "inp" = true ∧ free_of "." "inp" = true ∧
  network_name ("sample_networks" +:+ "/" +:+ "net2" +:+ "." +:+ "inp") = "net2" ∧
  network_name ("net2" +:+ "." +:+ "inp") = "net2" ∧
  network_name ("." +:+ "inp") = "." +:+ "inp".
Proof.
  do 4 (split; [reflexivity|]).
  apply (network_name_stem "sample_networks" "net2" "inp"); reflexivity.
Defined.

(** X21. The four files of a run have four different names, whatever the
    name of the network: the paths file, the two matrices and the index
    mapping never overwrite one another. *)
Theorem output_filenames_distinct (network_name : string)
    (index_matrix : DataFrame nat) (id_matrix : DataFrame string) :
  ∃ written,
    save_distance_matrices network_name index_matrix id_matrix = Ok written ∧
    written.*1 = [get_output_filename network_name "distance_matrix_index" "csv";
                  get_output_filename network_name "distance_matrix_id" "csv";
                  get_output_filename network_name "index_to_id_mapping" "json"] ∧
    NoDup (paths_filename network_name :: written.*1).
Proof.
  unfold save_distance_matrices. rewrite index_to_id_imap. cbn [mbind result_bind].
  eexists. split; [reflexivity|]. split; [reflexivity|].
  cbn [fmap list_fmap fst]. unfold paths_filename.
  apply (NoDup_fmap_1 String.length).
  cbn [fmap list_fmap]. rewrite !length_get_output_filename. cbn [String.length].
  apply NoDup_alt. intros [|[|[|[|i]]]] [|[|[|[|j]]]] x; cbn; try done;
    intros [= <-] [= ?]; lia.
Qed.
